(** * grapher: alignment of price series and the crypto range cache

    A shallow embedding of [src/components/SecondScreen.tsx] (with the parts
    of [src/api/binance.ts] and [src/types/index.ts] it relies on) and the
    properties of the nearest-sample search, the row builder, the selection
    toggle and the incremental crypto fetch.

    Conventions.
    - A JS [number] that holds a Unix timestamp or an array index is an
      integer ([Z], [nat]); a JS [number] that holds a price is an IEEE 754
      binary64 value (Rocq's primitive [float]), so [+] on prices is
      [PrimFloat.add], rounding included.
    - [null] / [undefined] results are [None].
    - A JS [Map] whose iteration order is observed is an association list in
      insertion order; a [Map] or object that is only read and written by key
      is a [gmap].
    - A network call is a function given as a section variable; it returns
      [None] when the promise rejects.  An [async] function is modelled by its
      net effect on the component state once the awaited promise has settled,
      together with the list of network calls it issued.  Clicks and effects
      are taken one at a time, so the values a callback captured from its
      render ([selectedBets], [priceHistories], [cryptoPrices]) are those of
      the state it runs on. *)

From Stdlib Require Import PrimFloat ZArith Lia.
From stdpp Require Import gmap strings list sorting pretty.
From Equations Require Import Equations.

#[local] Set Warnings "-inexact-float".
#[local] Open Scope Z_scope.

(** ** Data model ([src/types/index.ts]) *)

Record PricePoint := mkPricePoint {
  t : Z;      (* Unix timestamp *)
  p : float;  (* Price *)
}.

#[global] Instance PricePoint_inhabited : Inhabited PricePoint :=
  populate (mkPricePoint 0 0%float).

Record PriceHistory := mkPriceHistory { history : list PricePoint }.

Inductive CryptoOption := BTC | ETH | SOL | NONE.

#[global] Instance CryptoOption_eq_dec : EqDecision CryptoOption.
Proof. solve_decision. Defined.

Inductive BetType := YES | NO.

#[global] Instance BetType_eq_dec : EqDecision BetType.
Proof. solve_decision. Defined.

Record ParsedMarket := mkParsedMarket {
  id : string;
  question : string;
  groupItemTitle : string;
  groupItemThreshold : Z;
  endDate : Z;
  startDate : Z;
  yesTokenId : string;
  noTokenId : string;
}.

Record SelectedBet := mkSelectedBet {
  marketId : string;
  betQuestion : string;
  betGroupItemTitle : string;
  betStartDate : Z;
  type : BetType;
  tokenId : string;
}.

(** [ChartDataPoint] is [{ timestamp: number; [key: string]: number }]: the
    timestamp, and a JS object used as a map from series name to price. *)
Record ChartDataPoint := mkChartDataPoint {
  timestamp : Z;
  fields : gmap string float;
}.

(** The string a template literal prints for a [CryptoOption] or a bet type. *)
Definition cryptoName (c : CryptoOption) : string :=
  match c with BTC => "BTC" | ETH => "ETH" | SOL => "SOL" | NONE => "NONE" end.

Definition typeName (ty : BetType) : string :=
  match ty with YES => "YES" | NO => "NO" end.

(** ** [Array.prototype.sort] with a numeric key comparator

    [arr.sort((a, b) => key(a) - key(b))] is a stable sort by [key]; the
    stable sorted permutation of a list is unique, and insertion in front of
    the first element whose key is not smaller computes it. *)
Section Sort.
Context {A : Type} (key : A → Z).

Fixpoint insertBy (x : A) (l : list A) : list A :=
  match l with
  | [] => [x]
  | y :: l' => if bool_decide (key x ≤ key y) then x :: l else y :: insertBy x l'
  end.

Definition sortBy (l : list A) : list A := foldr insertBy [] l.

(** Ascending by key, duplicates allowed. *)
Definition ascending (l : list A) : Prop :=
  StronglySorted (λ a b, key a ≤ key b) l.

(** Ascending by key with no two equal keys. *)
Definition strictlyAscending (l : list A) : Prop :=
  StronglySorted (λ a b, key a < key b) l.

#[global] Instance ascending_dec (l : list A) : Decision (ascending l).
Proof. unfold ascending. apply _. Defined.

#[global] Instance strictlyAscending_dec (l : list A) : Decision (strictlyAscending l).
Proof. unfold strictlyAscending. apply _. Defined.
End Sort.

(** ** [findNearestPrice] *)

(** [generateBetKey]: the template literal [`${marketId}-${type}`]. *)
Definition generateBetKey (marketId : string) (ty : BetType) : string :=
  marketId +:+ "-" +:+ typeName ty.

(** The [while (left < right)] loop of [findNearestPrice]; [lo] and [hi] are
    the source's [left] and [right].  Every read [history[mid]] is in range
    when [hi] is at most the length, since [lo <= mid < hi]. *)
Equations? searchInsertionPoint (history : list PricePoint) (targetTimestamp : Z)
    (lo hi : nat) : nat by wf (hi - lo)%nat lt :=
  searchInsertionPoint history targetTimestamp lo hi with decide (lo < hi)%nat := {
    | left Hlt =>
        let mid := ((lo + hi) / 2)%nat in
        if bool_decide (t (history !!! mid) < targetTimestamp)
        then searchInsertionPoint history targetTimestamp (mid + 1)%nat hi
        else searchInsertionPoint history targetTimestamp lo mid
    | right _ => lo }.
Proof.
  all: subst mid; change (Nat.divmod (lo + hi) 1 0 1).1 with ((lo + hi) / 2)%nat.
  all: pose proof (Nat.div_mod_eq (lo + hi) 2);
       pose proof (Nat.mod_upper_bound (lo + hi) 2 ltac:(lia)); lia.
Qed.

(** A JS [number] that is an integer or one of the two infinities:
    [minDelta] starts at [Infinity], and [timeRange] starts its bounds at
    [Infinity] and [-Infinity]. *)
Inductive Num := NegInfinity | Finite (z : Z) | Infinity.

(** [d < m], [Math.min(m, z)] and [Math.max(m, z)] for an integer [d], [z]. *)
Definition numLt (d : Z) (m : Num) : bool :=
  match m with
  | NegInfinity => false
  | Finite m' => bool_decide (d < m')
  | Infinity => true
  end.

Definition numMin (m : Num) (z : Z) : Num :=
  match m with
  | NegInfinity => NegInfinity
  | Finite m' => Finite (Z.min m' z)
  | Infinity => Finite z
  end.

Definition numMax (m : Num) (z : Z) : Num :=
  match m with
  | NegInfinity => Finite z
  | Finite m' => Finite (Z.max m' z)
  | Infinity => Infinity
  end.

(** One iteration of [for (const point of candidates)], on the pair
    [(nearest, minDelta)]. *)
Definition considerCandidate (targetTimestamp maxDeltaSeconds : Z)
    (acc : option PricePoint * Num) (point : PricePoint) : option PricePoint * Num :=
  let delta := Z.abs (t point - targetTimestamp) in
  if numLt delta acc.2 && bool_decide (delta ≤ maxDeltaSeconds)
  then (Some point, Finite delta)
  else acc.

Definition findNearestPrice (history : list PricePoint) (targetTimestamp : Z)
    (maxDeltaSeconds : Z) : option float :=
  if decide (length history = 0%nat) then None else
  let left := searchInsertionPoint history targetTimestamp 0 (length history) in
  let candidates :=
    (if decide (left < length history)%nat then [history !!! left] else []) ++
    (if decide (0 < left)%nat then [history !!! (left - 1)%nat] else []) in
  let nearest :=
    (foldl (considerCandidate targetTimestamp maxDeltaSeconds) (None, Infinity) candidates).1 in
  p <$> nearest.

(** The point the candidate loop leaves in [nearest], as a decision table
    over the two candidates ([findNearestPrice_nearestPoint] below). *)
Definition nearestPoint (h : list PricePoint) (targetTimestamp maxDeltaSeconds : Z)
    : option PricePoint :=
  let left := searchInsertionPoint h targetTimestamp 0 (length h) in
  let at_ := h !!! left in
  let before := h !!! (left - 1)%nat in
  let dAt := Z.abs (t at_ - targetTimestamp) in
  let dBefore := Z.abs (t before - targetTimestamp) in
  if decide (left < length h)%nat then
    if decide (dAt ≤ maxDeltaSeconds) then
      if decide ((0 < left)%nat ∧ dBefore < dAt) then Some before else Some at_
    else if decide ((0 < left)%nat ∧ dBefore ≤ maxDeltaSeconds) then Some before else None
  else if decide ((0 < left)%nat ∧ dBefore ≤ maxDeltaSeconds) then Some before else None.

(** The default value of [maxDeltaSeconds] (4.5 minutes) and the tolerance
    [chartData] passes for the crypto series (2 minutes). *)
Definition defaultMaxDeltaSeconds : Z := 270.
Definition cryptoMaxDeltaSeconds : Z := 120.

(** ** A JS [Map] with string keys, in insertion order *)
Section JsMap.
Context {V : Type}.

Definition mapKeys (m : list (string * V)) : list string := m.*1.

Definition mapHas (k : string) (m : list (string * V)) : bool :=
  bool_decide (k ∈ mapKeys m).

Definition mapDelete (k : string) (m : list (string * V)) : list (string * V) :=
  filter (λ kv, kv.1 ≠ k) m.

(** [set] keeps the position of a key that is present and appends a new one. *)
Definition mapSet (k : string) (v : V) (m : list (string * V)) : list (string * V) :=
  if mapHas k m
  then (λ kv, if decide (kv.1 = k) then (k, v) else kv) <$> m
  else m ++ [(k, v)].
End JsMap.

(** ** Component state of [SecondScreen] *)

(** The value of [cryptoCacheRef.current] when it is not [null]. *)
Record CryptoCache := mkCryptoCache {
  cacheCrypto : CryptoOption;
  cacheMin : Z;
  cacheMax : Z;
}.

(** [{ min, max }], the value of [timeRange] and an entry of [fetchRanges]. *)
Record Range := mkRange { rangeMin : Z; rangeMax : Z }.

#[global] Instance Range_eq_dec : EqDecision Range.
Proof. solve_decision. Defined.

Record State := mkState {
  selectedBets : list (string * SelectedBet);
  priceHistories : gmap string (list PricePoint);
  cryptoPrices : list PricePoint;
  loadingBets : gset string;
  loadingCrypto : bool;
  error : option string;
  cryptoCacheRef : option CryptoCache;
}.

Definition initialState : State :=
  mkState [] ∅ [] ∅ false None None.

Definition setSelectedBets (f : list (string * SelectedBet) → list (string * SelectedBet))
    (st : State) : State :=
  mkState (f (selectedBets st)) (priceHistories st) (cryptoPrices st) (loadingBets st)
    (loadingCrypto st) (error st) (cryptoCacheRef st).

Definition setPriceHistories
    (f : gmap string (list PricePoint) → gmap string (list PricePoint)) (st : State) : State :=
  mkState (selectedBets st) (f (priceHistories st)) (cryptoPrices st) (loadingBets st)
    (loadingCrypto st) (error st) (cryptoCacheRef st).

Definition setCryptoPrices (prices : list PricePoint) (st : State) : State :=
  mkState (selectedBets st) (priceHistories st) prices (loadingBets st)
    (loadingCrypto st) (error st) (cryptoCacheRef st).

Definition setLoadingBets (f : gset string → gset string) (st : State) : State :=
  mkState (selectedBets st) (priceHistories st) (cryptoPrices st) (f (loadingBets st))
    (loadingCrypto st) (error st) (cryptoCacheRef st).

Definition setLoadingCrypto (b : bool) (st : State) : State :=
  mkState (selectedBets st) (priceHistories st) (cryptoPrices st) (loadingBets st)
    b (error st) (cryptoCacheRef st).

Definition setError (e : option string) (st : State) : State :=
  mkState (selectedBets st) (priceHistories st) (cryptoPrices st) (loadingBets st)
    (loadingCrypto st) e (cryptoCacheRef st).

Definition setCryptoCacheRef (c : option CryptoCache) (st : State) : State :=
  mkState (selectedBets st) (priceHistories st) (cryptoPrices st) (loadingBets st)
    (loadingCrypto st) (error st) c.

(** The arguments of one call of [fetchPriceHistory]. *)
Record PriceHistoryRequest := mkPriceHistoryRequest {
  reqTokenId : string;
  reqStartTs : string;
  reqFidelity : Z;
}.

(** The arguments of one call of [fetchCryptoPriceHistory]. *)
Record CryptoRequest := mkCryptoRequest {
  reqCrypto : CryptoOption;
  reqStartTime : Z;
  reqEndTime : Z;
}.

(** [dedupedPrices]: the filter
    [(price, index, arr) => index === 0 || price.t !== arr[index - 1].t]. *)
Definition dedupe (arr : list PricePoint) : list PricePoint :=
  omap (λ kept, kept)
    (imap (λ index price,
             if decide (index = 0%nat ∨ t price ≠ t (arr !!! (index - 1)%nat))
             then Some price else None) arr).

(** The same filter as a recursion that carries the previous timestamp. *)
Fixpoint dedupeAfter (prev : Z) (l : list PricePoint) : list PricePoint :=
  match l with
  | [] => []
  | x :: l' => if decide (t x ≠ prev) then x :: dedupeAfter (t x) l' else dedupeAfter (t x) l'
  end.

Section Component.
(** [fetchPriceHistory] ([src/api/polymarket.ts]) is one GET request that
    returns [response.data]; the request itself is the collaborator. *)
Variable fetchPriceHistory : PriceHistoryRequest → option PriceHistory.

(** The candles [fetchCryptoPriceHistory] ([src/api/binance.ts]) has
    accumulated in [allKlines] when its paging loop over the exchange API
    ends, or [None] when a request fails. *)
Variable allKlines : CryptoRequest → option (list PricePoint).

(** [fetchCryptoPriceHistory] returns [allKlines.sort((a, b) => a.t - b.t)]. *)
Definition fetchCryptoPriceHistory (req : CryptoRequest) : option (list PricePoint) :=
  sortBy t <$> allKlines req.

(** *** [handleBetToggle] *)
Definition fetchErrorMessage (market : ParsedMarket) (ty : BetType) : string :=
  "Failed to fetch price history for " +:+ question market +:+ " (" +:+ typeName ty +:+ ")".

Definition toggleSelection (betKey : string) (bet : SelectedBet)
    (prev : list (string * SelectedBet)) : list (string * SelectedBet) :=
  if mapHas betKey prev then mapDelete betKey prev else mapSet betKey bet prev.

Definition handleBetToggle (market : ParsedMarket) (ty : BetType) (st : State)
    : State * list PriceHistoryRequest :=
  let betKey := generateBetKey (id market) ty in
  let tokenId := match ty with YES => yesTokenId market | NO => noTokenId market end in
  let bet := mkSelectedBet (id market) (question market) (groupItemTitle market)
               (startDate market) ty tokenId in
  let st1 := setSelectedBets (toggleSelection betKey bet) st in
  (* If we're adding a bet and don't have its history, fetch it *)
  if negb (mapHas betKey (selectedBets st)) &&
     negb (bool_decide (is_Some (priceHistories st !! betKey)))
  then
    let st2 := setError None (setLoadingBets (λ prev, prev ∪ {[betKey]}) st1) in
    let req := mkPriceHistoryRequest tokenId (pretty (startDate market)) 10 in
    let st3 :=
      match fetchPriceHistory req with
      | Some response =>
          setPriceHistories (λ prev, <[betKey := sortBy t (history response)]> prev) st2
      | None =>
          (* Remove the bet from selection if fetch failed *)
          setSelectedBets (mapDelete betKey)
            (setError (Some (fetchErrorMessage market ty)) st2)
      end in
    (setLoadingBets (λ prev, prev ∖ {[betKey]}) st3, [req])
  else (st1, []).

(** A session of clicks: the state after toggling each bet in turn. *)
Definition handleBetToggles (clicks : list (ParsedMarket * BetType)) (st : State) : State :=
  foldl (λ acc click, (handleBetToggle click.1 click.2 acc).1) st clicks.

(** *** [timeRange] *)
Definition timeRangeStep (st : State) (acc : Num * Num) (betKey : string) : Num * Num :=
  match priceHistories st !! betKey with
  | Some h =>
      if decide (0 < length h)%nat
      then (numMin acc.1 (t (h !!! 0%nat)), numMax acc.2 (t (h !!! (length h - 1)%nat)))
      else acc
  | None => acc
  end.

Definition timeRange (st : State) : option Range :=
  match foldl (timeRangeStep st) (Infinity, NegInfinity) (mapKeys (selectedBets st)) with
  | (Finite minTime, Finite maxTime) => Some (mkRange minTime maxTime)
  | _ => None
  end.

(** *** [fetchCrypto] and the effect that runs it *)
Definition cryptoErrorMessage (crypto : CryptoOption) : string :=
  "Failed to fetch " +:+ cryptoName crypto +:+ " price data".

(** [fetchRanges] as filled by the two [push]es. *)
Definition fetchRanges (timeRange : Range) (cache : CryptoCache) : list Range :=
  (if decide (rangeMin timeRange < cacheMin cache)
   then [mkRange (rangeMin timeRange) (cacheMin cache)] else []) ++
  (if decide (rangeMax timeRange > cacheMax cache)
   then [mkRange (cacheMax cache) (rangeMax timeRange)] else []).

Definition rangeRequest (crypto : CryptoOption) (range : Range) : CryptoRequest :=
  mkCryptoRequest crypto (rangeMin range) (rangeMax range).

(** The first branch of [fetchCrypto]: fetch the entire range. *)
Definition fetchEntireRange (crypto : CryptoOption) (timeRange : Range) (st : State)
    : State * list CryptoRequest :=
  let req := rangeRequest crypto timeRange in
  match fetchCryptoPriceHistory req with
  | Some prices =>
      (setLoadingCrypto false
         (setCryptoCacheRef
            (Some (mkCryptoCache crypto (rangeMin timeRange) (rangeMax timeRange)))
            (setCryptoPrices prices (setLoadingCrypto true st))),
       [req])
  | None =>
      (setLoadingCrypto false
         (setError (Some (cryptoErrorMessage crypto)) (setLoadingCrypto true st)),
       [req])
  end.

(** The branches after the first one, for a cache that is not [null]. *)
Definition fetchMissingRanges (crypto : CryptoOption) (timeRange : Range)
    (cache : CryptoCache) (st : State) : State * list CryptoRequest :=
  (* Check if new range is fully covered by cached data *)
  if bool_decide (rangeMin timeRange >= cacheMin cache) &&
     bool_decide (rangeMax timeRange ≤ cacheMax cache)
  then (st, [])
  else
    let ranges := fetchRanges timeRange cache in
    if decide (length ranges = 0%nat) then (st, []) else
    let requests := rangeRequest crypto <$> ranges in
    (* Promise.all: every request is issued, and one rejection rejects the whole *)
    match mapM fetchCryptoPriceHistory requests with
    | Some newPricesArrays =>
        let allPrices := sortBy t (cryptoPrices st ++ concat newPricesArrays) in
        let dedupedPrices := dedupe allPrices in
        (setLoadingCrypto false
           (setCryptoCacheRef
              (Some (mkCryptoCache crypto
                       (Z.min (rangeMin timeRange) (cacheMin cache))
                       (Z.max (rangeMax timeRange) (cacheMax cache))))
              (setCryptoPrices dedupedPrices (setLoadingCrypto true st))),
         requests)
    | None =>
        (setLoadingCrypto false
           (setError (Some (cryptoErrorMessage crypto)) (setLoadingCrypto true st)),
         requests)
    end.

Definition fetchCrypto (crypto : CryptoOption) (timeRange : Range) (st : State)
    : State * list CryptoRequest :=
  match cryptoCacheRef st with
  | None => fetchEntireRange crypto timeRange st
  | Some cache =>
      (* If crypto changed or no cache exists, fetch entire range *)
      if bool_decide (cacheCrypto cache ≠ crypto) ||
         bool_decide (length (cryptoPrices st) = 0%nat)
      then fetchEntireRange crypto timeRange st
      else fetchMissingRanges crypto timeRange cache st
  end.

(** The first branch of the effect: [setCryptoPrices([])] when there is
    something stored, and [cryptoCacheRef.current = null]. *)
Definition clearCrypto (st : State) : State :=
  setCryptoCacheRef None
    (if decide (0 < length (cryptoPrices st))%nat then setCryptoPrices [] st else st).

(** The effect with dependencies [[crypto, timeRange]]. *)
Definition cryptoEffect (crypto : CryptoOption) (timeRange : option Range) (st : State)
    : State * list CryptoRequest :=
  match timeRange with
  | Some range =>
      if decide (crypto = NONE) then (clearCrypto st, [])
      else fetchCrypto crypto range st
  | None => (clearCrypto st, [])
  end.

(** *** [chartData] *)

(** Adding the timestamps of [points] to the keys of [dataMap]. *)
Definition collectTimestamps (keys : list Z) (points : list PricePoint) : list Z :=
  foldl (λ acc point, if decide (t point ∈ acc) then acc else acc ++ [t point]) keys points.

(** One iteration of [for (const betKey of betKeys)] on
    [(dataPoint, sum, validBetsForSum)]. *)
Definition fillBet (st : State) (timestamp : Z) (acc : gmap string float * float * nat)
    (betKey : string) : gmap string float * float * nat :=
  match priceHistories st !! betKey with
  | Some h =>
      match findNearestPrice h timestamp defaultMaxDeltaSeconds with
      | Some price => (<[betKey := price]> acc.1.1, (acc.1.2 + price)%float, S acc.2)
      | None => acc
      end
  | None => acc
  end.

(** The body of [for (const timestamp of timestamps)].  The properties
    written are bet keys, ["sum"] and a crypto name, never ["timestamp"],
    which is why the timestamp is kept apart from the other fields. *)
Definition fillDataPoint (crypto : CryptoOption) (st : State) (betKeys : list string)
    (timestamp : Z) : ChartDataPoint :=
  let '(dataPoint, sum, validBetsForSum) :=
    foldl (fillBet st timestamp) (∅, 0%float, 0%nat) betKeys in
  (* Add sum if we have multiple bets *)
  let dataPoint :=
    if bool_decide (1 < length betKeys)%nat && bool_decide (validBetsForSum = length betKeys)
    then <["sum" := sum]> dataPoint else dataPoint in
  (* Add crypto price *)
  let dataPoint :=
    if bool_decide (crypto ≠ NONE) && bool_decide (0 < length (cryptoPrices st))%nat
    then match findNearestPrice (cryptoPrices st) timestamp cryptoMaxDeltaSeconds with
         | Some cryptoPrice => <[cryptoName crypto := cryptoPrice]> dataPoint
         | None => dataPoint
         end
    else dataPoint in
  mkChartDataPoint timestamp dataPoint.

Definition chartData (crypto : CryptoOption) (st : State) : list ChartDataPoint :=
  let betKeys := mapKeys (selectedBets st) in
  (* Collect all unique timestamps *)
  let keys :=
    foldl (λ acc betKey,
             match priceHistories st !! betKey with
             | Some h => collectTimestamps acc h
             | None => acc
             end) [] betKeys in
  (* Add crypto timestamps if available *)
  let keys :=
    if bool_decide (crypto ≠ NONE) && bool_decide (0 < length (cryptoPrices st))%nat
    then collectTimestamps keys (cryptoPrices st) else keys in
  let timestamps := sortBy (λ z : Z, z) keys in
  fillDataPoint crypto st betKeys <$> timestamps.

(** The value a selected series yields at a timestamp: the nearest price
    of its stored history, if it has one and a sample is within the
    default tolerance. *)
Definition nearestAt (st : State) (timestamp : Z) (betKey : string) : option float :=
  priceHistories st !! betKey ≫= λ h, findNearestPrice h timestamp defaultMaxDeltaSeconds.

(** The keys [handleBetToggle] can put into [selectedBets]. *)
Definition isBetKey (k : string) : Prop :=
  ∃ (marketId : string) (ty : BetType), k = generateBetKey marketId ty.
End Component.

(** ** [fetchCryptoPriceHistory]: the paging loop ([src/api/binance.ts]) *)

(** [CRYPTO_SYMBOLS[crypto]]; the table has no entry for ['NONE']. *)
Definition CRYPTO_SYMBOLS (crypto : CryptoOption) : option string :=
  match crypto with
  | BTC => Some "BTCUSDT"
  | ETH => Some "ETHUSDT"
  | SOL => Some "SOLUSDT"
  | NONE => None
  end.

(** The parameters of one GET of [/klines] that vary; [interval] is ['5m']
    and [limit] is 1000 in every request. *)
Record KlinesRequest := mkKlinesRequest {
  klSymbol : option string;
  klStartTime : Z;
  klEndTime : Z;
}.

(** What the loop reads of a candle: [kline[0]], the open time in
    milliseconds, and [parseFloat(kline[4])], the close price. *)
Record Kline := mkKline {
  klineOpenTime : Z;
  klineClose : float;
}.

#[global] Instance Kline_inhabited : Inhabited Kline := populate (mkKline 0 0%float).

Definition klinePoint (kline : Kline) : PricePoint :=
  mkPricePoint (klineOpenTime kline / 1000) (klineClose kline).

(** How the loop ends: with [allKlines], with a rejected request, or not
    within the number of turns looked at. *)
Inductive Paged :=
  | PagesDone (allKlines : list PricePoint)
  | PagesRejected
  | PagesPending.

(** The [while (currentStartTime < endTimeMs)] loop, for at most [turns]
    evaluations of its condition, with the requests it issued. *)
Fixpoint klinePages (axiosGet : KlinesRequest → option (list Kline)) (turns : nat)
    (symbol : option string) (currentStartTime endTimeMs : Z)
    (allKlines : list PricePoint) : Paged * list KlinesRequest :=
  match turns with
  | O => (PagesPending, [])
  | S turns' =>
      if decide (currentStartTime < endTimeMs) then
        let request := mkKlinesRequest symbol currentStartTime endTimeMs in
        match axiosGet request with
        | None => (PagesRejected, [request])
        | Some klines =>
            if decide (length klines = 0%nat) then (PagesDone allKlines, [request])
            else
              let allKlines := allKlines ++ (klinePoint <$> klines) in
              (* Move start time to last candle time + 1 minute *)
              let lastKlineTime := klineOpenTime (klines !!! (length klines - 1)%nat) in
              let rest :=
                klinePages axiosGet turns' symbol (lastKlineTime + 60000) endTimeMs allKlines in
              (rest.1, request :: rest.2)
        end
      else (PagesDone allKlines, [])
  end.

Definition pagedKlines (axiosGet : KlinesRequest → option (list Kline)) (turns : nat)
    (req : CryptoRequest) : Paged * list KlinesRequest :=
  klinePages axiosGet turns (CRYPTO_SYMBOLS (reqCrypto req))
    (reqStartTime req * 1000) (reqEndTime req * 1000) [].

(** [allKlines] as the loop leaves it, for [fetchCryptoPriceHistory] above. *)
Definition allKlinesOf (axiosGet : KlinesRequest → option (list Kline)) (turns : nat)
    (req : CryptoRequest) : option (list PricePoint) :=
  match (pagedKlines axiosGet turns req).1 with
  | PagesDone allKlines => Some allKlines
  | _ => None
  end.

(** The number of whole or started minutes from a start to the end. *)
Definition minutesLeft (currentStartTime endTimeMs : Z) : nat :=
  Z.to_nat ((endTimeMs - currentStartTime + 59999) / 60000).

(** An exchange that returns no candle older than the requested start. *)
Definition answersFromStart (axiosGet : KlinesRequest → option (list Kline)) : Prop :=
  ∀ (request : KlinesRequest) (klines : list Kline) (kline : Kline),
    axiosGet request = Some klines → kline ∈ klines →
    klStartTime request ≤ klineOpenTime kline.

(** ** [extractSlugFromUrl] ([src/api/polymarket.ts])

    The pattern
    [/^https?:\/\/(?:www\.)?polymarket\.com\/event\/([a-zA-Z0-9-]+)\/?.*$/]
    is written with one matcher per construct.  A matcher takes the
    continuation that matches the rest of the pattern, so that a greedy
    construct tries its longest match first and gives characters back when
    the rest fails, as the engine does.  The pattern starts with [^], so a
    match can only start at the first character. *)

(** The rest of [s] after the literal, when [s] starts with it. *)
Fixpoint stripPrefix (literal s : string) : option string :=
  match literal with
  | EmptyString => Some s
  | String c literal' =>
      match s with
      | String d s' => if decide (c = d) then stripPrefix literal' s' else None
      | EmptyString => None
      end
  end.

(** [[a-zA-Z0-9-]] and [.], which is every character but a line terminator
    (for code units below 256: line feed and carriage return). *)
Definition isSlugChar (c : Ascii.ascii) : bool :=
  let code := Z.of_N (Ascii.N_of_ascii c) in
  bool_decide (97 ≤ code ≤ 122) || bool_decide (65 ≤ code ≤ 90) ||
  bool_decide (48 ≤ code ≤ 57) || bool_decide (code = 45).

Definition isNotLineTerminator (c : Ascii.ascii) : bool :=
  let code := Z.of_N (Ascii.N_of_ascii c) in
  bool_decide (code ≠ 10) && bool_decide (code ≠ 13).

Fixpoint stringForall (class : Ascii.ascii → bool) (s : string) : bool :=
  match s with
  | EmptyString => true
  | String c s' => class c && stringForall class s'
  end.

Section Matchers.
Context {A : Type}.

(** A literal. *)
Definition reLit (literal : string) (k : string → option A) (s : string) : option A :=
  match stripPrefix literal s with
  | Some rest => k rest
  | None => None
  end.

(** [literal?]: with the literal first, without it when that fails. *)
Definition reOpt (literal : string) (k : string → option A) (s : string) : option A :=
  match reLit literal k s with
  | Some a => Some a
  | None => k s
  end.

(** [[class]*], greedy; the continuation also gets the matched text. *)
Fixpoint reStar (class : Ascii.ascii → bool) (k : string → string → option A)
    (s : string) : option A :=
  match s with
  | String c s' =>
      if class c then
        match reStar class (λ matched, k (String c matched)) s' with
        | Some a => Some a
        | None => k EmptyString s
        end
      else k EmptyString s
  | EmptyString => k EmptyString EmptyString
  end.

(** [[class]+], greedy. *)
Definition rePlus (class : Ascii.ascii → bool) (k : string → string → option A)
    (s : string) : option A :=
  match s with
  | String c s' => if class c then reStar class (λ matched, k (String c matched)) s' else None
  | EmptyString => None
  end.

(** [$], the end of the input, with the result of the match. *)
Definition reEnd (a : A) (s : string) : option A :=
  match s with
  | EmptyString => Some a
  | String _ _ => None
  end.
End Matchers.

(** [match ? match[1] : null]. *)
Definition extractSlugFromUrl (url : string) : option string :=
  reLit "http" (reOpt "s" (reLit "://" (reOpt "www." (reLit "polymarket.com/event/"
    (rePlus isSlugChar (λ slug,
       reOpt "/" (reStar isNotLineTerminator (λ _, reEnd slug)))))))) url.

Definition isValidPolymarketUrl (url : string) : bool :=
  match extractSlugFromUrl url with
  | Some _ => true
  | None => false
  end.

(** The four ways a matching URL can start. *)
Definition eventUrlPrefixes : list string :=
  ["http://polymarket.com/event/"; "https://polymarket.com/event/";
   "http://www.polymarket.com/event/"; "https://www.polymarket.com/event/"].

(** The text after the slug starts with a character that is not a slug
    character, if it is not empty. *)
Definition endsSlug (tail : string) : bool :=
  match tail with
  | EmptyString => true
  | String c _ => negb (isSlugChar c)
  end.

(** ** [PriceChart]: the colour of a bet line *)

(** Distinctive green shades for YES bets and red shades for NO bets. *)
Definition YES_SHADES : list string :=
  ["#22C55E"; "#10B981"; "#84CC16"; "#14B8A6"; "#4ADE80"; "#16A34A"; "#A3E635"; "#34D399"].

Definition NO_SHADES : list string :=
  ["#FF0000"; "#702963"; "#EC4899"; "#F43F5E"; "#FB7185"; "#DC2626"; "#E11D48"; "#800020"].

(** [ToInt32]: the signed 32-bit integer a bit operator sees in a number. *)
Definition toInt32 (z : Z) : Z := (z + 2 ^ 31) mod 2 ^ 32 - 2 ^ 31.

(** [str.charCodeAt(i)], for a string whose code units are below 256. *)
Definition charCode (c : Ascii.ascii) : Z := Z.of_N (Ascii.N_of_ascii c).

(** The body of the loop of [hashString]:
    [hash = ((hash << 6) - hash) + char; hash = hash & hash].  The shift and
    the [&] work on 32-bit integers; the subtraction and the addition are
    exact, on numbers far below 2^53. *)
Definition hashStep (hash : Z) (c : Ascii.ascii) : Z :=
  let char := charCode c in
  let hash := toInt32 (Z.shiftl (toInt32 hash) 6) - hash + char in
  Z.land (toInt32 hash) (toInt32 hash).

Fixpoint hashLoop (hash : Z) (str : string) : Z :=
  match str with
  | EmptyString => hash
  | String c rest => hashLoop (hashStep hash c) rest
  end.

Definition hashString (str : string) : Z := Z.abs (hashLoop 0 str).

(** [shades[index]] is [undefined] outside the array. *)
Definition getBetColor (betKey : string) (betType : BetType) : option string :=
  let shades := match betType with YES => YES_SHADES | NO => NO_SHADES end in
  let index := Z.rem (hashString betKey) (Z.of_nat (length shades)) in
  if decide (0 ≤ index) then shades !! Z.to_nat index else None.

(** The hash as a polynomial in 63, before any wrap-around. *)
Fixpoint hashPolynomial (acc : Z) (str : string) : Z :=
  match str with
  | EmptyString => acc
  | String c rest => hashPolynomial (63 * acc + charCode c) rest
  end.

(** ** Names for parts of [chartData] and [timeRange] used in statements *)

(** The first loop of [chartData], from the keys already in [dataMap]. *)
Definition collectSelected (st : State) (init : list Z) (betKeys : list string) : list Z :=
  foldl (λ acc betKey,
           match priceHistories st !! betKey with
           | Some h => collectTimestamps acc h
           | None => acc
           end) init betKeys.

(** The condition under which [chartData] reads the crypto series. *)
Definition cryptoActive (crypto : CryptoOption) (st : State) : bool :=
  bool_decide (crypto ≠ NONE) && bool_decide (0 < length (cryptoPrices st))%nat.

(** The timestamps [timeRange] reads from the history of a key: those of
    [history[0]] and [history[history.length - 1]], when there is a history
    and it is not empty. *)
Definition firstLast (st : State) (betKey : string) : option (Z * Z) :=
  match priceHistories st !! betKey with
  | Some h =>
      if decide (0 < length h)%nat
      then Some (t (h !!! 0%nat), t (h !!! (length h - 1)%nat))
      else None
  | None => None
  end.

(** What holds of the selection between clicks: the keys are pairwise
    distinct bet keys, each has a stored history, every stored history is
    sorted, and no key is marked as loading. *)
Definition betweenClicks (st : State) : Prop :=
  NoDup (mapKeys (selectedBets st)) ∧
  Forall isBetKey (mapKeys (selectedBets st)) ∧
  (∀ k : string, k ∈ mapKeys (selectedBets st) → is_Some (priceHistories st !! k)) ∧
  (∀ (k : string) (h : list PricePoint), priceHistories st !! k = Some h → ascending t h) ∧
  loadingBets st = ∅.

(** A run of the crypto effect, once per change of [crypto] or [timeRange]. *)
Definition cryptoEffects (allKlines : CryptoRequest → option (list PricePoint))
    (steps : list (CryptoOption * option Range)) (st : State) : State :=
  foldl (λ acc step, (cryptoEffect allKlines step.1 step.2 acc).1) st steps.

(** A sample of the stored history of a selected key. *)
Definition selectedSample (st : State) (x : PricePoint) : Prop :=
  ∃ (k : string) (h : list PricePoint),
    k ∈ mapKeys (selectedBets st) ∧ priceHistories st !! k = Some h ∧ x ∈ h.

(** ** Scenarios used as concrete inputs *)

Definition betOf (marketId : string) (ty : BetType) : SelectedBet :=
  mkSelectedBet marketId "" "" 0 ty "".

(** Two selected series, A with samples at 10 and 20 and B with one at 10. *)
Definition seriesA : list PricePoint := [mkPricePoint 10 0.3; mkPricePoint 20 0.4].
Definition seriesB : list PricePoint := [mkPricePoint 10 0.6].

Definition twoSeriesState : State :=
  mkState
    [(generateBetKey "A" YES, betOf "A" YES); (generateBetKey "B" YES, betOf "B" YES)]
    (<[generateBetKey "B" YES := seriesB]> (<[generateBetKey "A" YES := seriesA]> ∅))
    [] ∅ false None None.

(** The ["sum"] of the row of [rows] with the given timestamp, if there is
    such a row and it has one. *)
Definition sumAt (rows : list ChartDataPoint) (ts : Z) : option float :=
  match filter (λ row, timestamp row = ts) rows with
  | row :: _ => fields row !! "sum"
  | [] => None
  end.

(** A market whose price history cannot be fetched, and a source that fails. *)
Definition someMarket : ParsedMarket :=
  mkParsedMarket "C" "Will it rain?" "" 0 0 1700000000 "tokenYes" "tokenNo".

Definition failingPriceHistory : PriceHistoryRequest → option PriceHistory := λ _, None.

Definition constantPriceHistory (h : list PricePoint)
    : PriceHistoryRequest → option PriceHistory := λ _, Some (mkPriceHistory h).

(** An exchange that answers every request with no candle at all, one that
    answers with a candle at each end of the requested range, one that
    fails for every range starting at 200 or later, and one that fails for
    every request. *)
Definition noCandles : CryptoRequest → option (list PricePoint) := λ _, Some [].


Definition endCandles : CryptoRequest → option (list PricePoint) :=
  λ req, Some [mkPricePoint (reqEndTime req) 2; mkPricePoint (reqStartTime req) 1].

Definition failingFrom200 : CryptoRequest → option (list PricePoint) :=
  λ req, if decide (reqStartTime req < 200) then endCandles req else None.

(** Coverage of [100, 200] for BTC with two stored candles, and with none:
    the state a first fetch of [100, 200] leaves when the exchange has no
    candle in that range. *)
Definition coveredState : State :=
  (fetchCrypto endCandles BTC (mkRange 100 200) initialState).1.

Definition coveredEmptyState : State :=
  (fetchCrypto noCandles BTC (mkRange 100 200) initialState).1.

(** One selected series, A, and BTC candles stored for its range [10, 20]. *)
Definition lastKeyState : State :=
  mkState
    [(generateBetKey "A" YES, betOf "A" YES)]
    (<[generateBetKey "A" YES := seriesA]> ∅)
    [mkPricePoint 10 1; mkPricePoint 20 2] ∅ false None
    (Some (mkCryptoCache BTC 10 20)).

(** An exchange with one candle every five minutes, that returns at most
    two candles per request: those opening at or after the requested start
    and at or before the requested end. *)
Definition fiveMinuteCandles : KlinesRequest → option (list Kline) :=
  λ request,
    let first := (klStartTime request + 299999) / 300000 * 300000 in
    Some (filter (λ kline, klineOpenTime kline ≤ klEndTime request)
            [mkKline first 1; mkKline (first + 300000) 2]).

(** * Properties *)

(** ** Sorting *)
Section SortFacts.
Context {A : Type} (key : A → Z).

Lemma ascending_lookup (l : list A) (i j : nat) (a b : A) :
  ascending key l → (i < j)%nat → l !! i = Some a → l !! j = Some b → key a ≤ key b.
Proof.
  intros Hs. revert i j. induction Hs as [|x l Hs IH Hall]; intros i j Hij Hi Hj.
  - by rewrite lookup_nil in Hi.
  - destruct j as [|j]; [lia|]. simpl in Hj.
    destruct i as [|i]; simpl in Hi.
    + inversion Hi; subst. rewrite Forall_forall in Hall.
      apply Hall. by eapply list_elem_of_lookup_2.
    + apply (IH i j); [lia|done..].
Qed.

Lemma insertBy_Permutation (x : A) (l : list A) : insertBy key x l ≡ₚ x :: l.
Proof.
  induction l as [|y l IH]; simpl; [done|].
  case_bool_decide; [done|]. rewrite IH. apply Permutation_swap.
Qed.

Lemma sortBy_Permutation (l : list A) : sortBy key l ≡ₚ l.
Proof.
  induction l as [|x l IH]; simpl; [done|].
  by rewrite insertBy_Permutation, IH.
Qed.

Lemma insertBy_ascending (x : A) (l : list A) :
  ascending key l → ascending key (insertBy key x l).
Proof.
  unfold ascending. induction 1 as [|y l Hs IH Hall]; simpl.
  - repeat constructor.
  - case_bool_decide as Hle.
    + constructor; [by constructor|]. constructor; [done|].
      eapply Forall_impl; [exact Hall|]. simpl. intros z Hz. lia.
    + constructor; [done|]. rewrite insertBy_Permutation.
      constructor; [lia|done].
Qed.

(** The result of [sort] is ascending by the key. *)
Lemma sortBy_ascending (l : list A) : ascending key (sortBy key l).
Proof.
  induction l as [|x l IH]; simpl; [constructor|]. by apply insertBy_ascending.
Qed.

Lemma strictlyAscending_NoDup (l : list A) :
  strictlyAscending key l → NoDup (key <$> l).
Proof.
  unfold strictlyAscending. induction 1 as [|x l Hs IH Hall]; simpl; constructor; [|done].
  intros Hin. apply list_elem_of_fmap in Hin as (y & Heq & Hy).
  rewrite Forall_forall in Hall. specialize (Hall y Hy). lia.
Qed.
End SortFacts.

(** ** The duplicate filter *)

Lemma dedupe_filter_shift (pre : list PricePoint) (x : PricePoint) (l : list PricePoint) :
  omap (λ kept, kept)
    (imap (λ index price,
             if decide (S (length pre + index) = 0%nat ∨
                        t price ≠ t ((pre ++ x :: l) !!! (S (length pre + index) - 1)%nat))
             then Some price else None) l)
  = dedupeAfter (t x) l.
Proof.
  revert pre x. induction l as [|y l IH]; intros pre x; [done|].
  rewrite imap_cons.
  change (omap ?f (?a :: ?k)) with (match f a with Some b => b :: omap f k | None => omap f k end).
  cbn [dedupeAfter].
  replace (S (length pre + 0) - 1)%nat with (length pre) by lia.
  rewrite list_lookup_total_middle by done.
  assert (Htail :
    omap (λ kept, kept)
      (imap ((λ index price,
               if decide (S (length pre + index) = 0%nat ∨
                          t price ≠ t ((pre ++ x :: y :: l) !!! (S (length pre + index) - 1)%nat))
               then Some price else None) ∘ S) l)
    = dedupeAfter (t y) l).
  { rewrite <- (IH (pre ++ [x]) y). f_equal. apply imap_ext. intros i z _. simpl.
    rewrite length_app, <- (assoc_L (++) pre [x] (y :: l)). simpl.
    by replace (length pre + 1 + i)%nat with (length pre + S i)%nat by lia. }
  rewrite Htail.
  destruct (decide (t y ≠ t x)) as [Hne|Heq].
  - rewrite decide_True by (by right). done.
  - rewrite decide_False; [done|]. intros [?|?]; [lia|done].
Qed.

(** The index filter of the source and the recursion agree. *)
Lemma dedupe_cons (x : PricePoint) (l : list PricePoint) :
  dedupe (x :: l) = x :: dedupeAfter (t x) l.
Proof.
  unfold dedupe. rewrite imap_cons.
  change (omap ?f (?a :: ?k)) with (match f a with Some b => b :: omap f k | None => omap f k end).
  rewrite decide_True by (by left). f_equal.
  by rewrite <- (dedupe_filter_shift [] x l).
Qed.

Lemma dedupeAfter_strictlyAscending (prev : Z) (l : list PricePoint) :
  ascending t l → Forall (λ y, prev ≤ t y) l →
  strictlyAscending t (dedupeAfter prev l) ∧ Forall (λ y, prev < t y) (dedupeAfter prev l).
Proof.
  unfold ascending, strictlyAscending. intros Hs. revert prev.
  induction Hs as [|x l Hs IH Hall]; intros prev Hprev; simpl.
  - split; constructor.
  - apply Forall_cons in Hprev as [Hx Hprev].
    destruct (IH (t x) Hall) as [IHs IHall].
    case_decide as Hne.
    + split; [by constructor|]. constructor; [lia|].
      eapply Forall_impl; [exact IHall|]. simpl. intros z Hz. lia.
    + replace prev with (t x) by (destruct (decide (t x = prev)); [done|tauto]).
      done.
Qed.

(** Filtering a series that is ascending by [t] leaves no two samples with
    the same timestamp. *)
Lemma dedupe_strictlyAscending (l : list PricePoint) :
  ascending t l → strictlyAscending t (dedupe l).
Proof.
  intros Hs. destruct l as [|x l]; [constructor|].
  rewrite dedupe_cons. apply StronglySorted_inv in Hs as [Hs Hall].
  destruct (dedupeAfter_strictlyAscending (t x) l Hs Hall) as [Hd Hgt].
  by constructor.
Qed.

(** ** The binary search of [findNearestPrice] *)

Lemma half_between (lo hi : nat) :
  (lo < hi)%nat → (lo ≤ (lo + hi) / 2 < hi)%nat.
Proof.
  intros Hlt. pose proof (Nat.div_mod_eq (lo + hi) 2).
  pose proof (Nat.mod_upper_bound (lo + hi) 2 ltac:(lia)). lia.
Qed.

(** One turn of the loop. *)
Lemma searchInsertionPoint_step (h : list PricePoint) (target : Z) (lo hi : nat) :
  searchInsertionPoint h target lo hi =
  if decide (lo < hi)%nat then
    if bool_decide (t (h !!! ((lo + hi) / 2)%nat) < target)
    then searchInsertionPoint h target ((lo + hi) / 2 + 1)%nat hi
    else searchInsertionPoint h target lo ((lo + hi) / 2)%nat
  else lo.
Proof.
  rewrite searchInsertionPoint_equation_1.
  by destruct (decide (lo < hi)%nat).
Qed.

(** The loop reads [history[mid]] only for [lo <= mid < hi]: two arrays that
    agree there give the same result, so with [hi] at most the length no read
    is out of range. *)
Lemma searchInsertionPoint_reads_in_range (h h' : list PricePoint) (target : Z)
    (lo hi : nat) :
  (∀ i : nat, (lo ≤ i < hi)%nat → h !!! i = h' !!! i) →
  searchInsertionPoint h target lo hi = searchInsertionPoint h' target lo hi.
Proof.
  remember (hi - lo)%nat as n eqn:Hn. revert lo hi Hn.
  induction n as [n IH] using lt_wf_ind. intros lo hi Hn Hagree.
  rewrite (searchInsertionPoint_step h), (searchInsertionPoint_step h').
  destruct (decide (lo < hi)%nat) as [Hlt|Hge]; [|done].
  pose proof (half_between lo hi Hlt) as Hmid.
  rewrite (Hagree ((lo + hi) / 2)%nat) by lia.
  case_bool_decide.
  - apply (IH (hi - ((lo + hi) / 2 + 1))%nat); [lia|done|].
    intros i Hi. apply Hagree. lia.
  - apply (IH ((lo + hi) / 2 - lo)%nat); [lia|done|].
    intros i Hi. apply Hagree. lia.
Qed.

(** What the loop guarantees on any array: the result stays between the
    bounds, the sample before it (if the loop moved [left]) is below the
    target and the sample at it (if the loop moved [right]) is not. *)
Lemma searchInsertionPoint_local (h : list PricePoint) (target : Z) (lo hi : nat) :
  (lo ≤ hi)%nat →
  (lo ≤ searchInsertionPoint h target lo hi ≤ hi)%nat ∧
  ((lo < searchInsertionPoint h target lo hi)%nat →
     t (h !!! (searchInsertionPoint h target lo hi - 1)%nat) < target) ∧
  ((searchInsertionPoint h target lo hi < hi)%nat →
     target ≤ t (h !!! searchInsertionPoint h target lo hi)).
Proof.
  funelim (searchInsertionPoint h target lo hi); intros Hle; [|lia].
  clear Heq Heqcall. pose proof (half_between lo hi Hlt) as Hmid.
  set (mid := ((lo + hi) / 2)%nat) in *.
  case_bool_decide as Hcmp.
  - destruct H as (Hr & Hbelow & Hat); [lia|].
    set (r := searchInsertionPoint _ _ (mid + 1)%nat hi) in *.
    split; [lia|]. split; [|done].
    intros _. destruct (decide (mid + 1 < r)%nat) as [Hmoved|Hstay]; [by apply Hbelow|].
    by replace (r - 1)%nat with mid by lia.
  - destruct H0 as (Hr & Hbelow & Hat); [lia|].
    set (r := searchInsertionPoint _ _ lo mid) in *.
    split; [lia|]. split; [done|].
    intros _. destruct (decide (r < mid)%nat) as [Hmoved|Hstay]; [by apply Hat|].
    replace r with mid by lia. lia.
Qed.

(** On a series sorted by [t] the result is the insertion point: every
    sample before it is below the target, every sample from it on is not. *)
Lemma searchInsertionPoint_sorted (h : list PricePoint) (target : Z) :
  ascending t h →
  let left := searchInsertionPoint h target 0 (length h) in
  (left ≤ length h)%nat ∧
  (∀ (j : nat) (a : PricePoint), (j < left)%nat → h !! j = Some a → t a < target) ∧
  (∀ (j : nat) (a : PricePoint), (left ≤ j)%nat → h !! j = Some a → target ≤ t a).
Proof.
  intros Hsorted left.
  destruct (searchInsertionPoint_local h target 0 (length h)) as (Hr & Hbelow & Hat); [lia|].
  fold left in Hr, Hbelow, Hat. split; [lia|]. split.
  - intros j a Hj Ha.
    assert (Hprev : h !! (left - 1)%nat = Some (h !!! (left - 1)%nat)).
    { apply list_lookup_lookup_total_lt. lia. }
    destruct (decide (j = left - 1)%nat) as [->|Hne].
    + rewrite Hprev in Ha. inversion Ha; subst. apply Hbelow. lia.
    + pose proof (ascending_lookup t h j (left - 1) _ _ Hsorted ltac:(lia) Ha Hprev).
      specialize (Hbelow ltac:(lia)). lia.
  - intros j a Hj Ha. pose proof (lookup_lt_Some _ _ _ Ha) as Hlen.
    assert (Hcur : h !! left = Some (h !!! left)).
    { apply list_lookup_lookup_total_lt. lia. }
    destruct (decide (j = left)) as [->|Hne].
    + rewrite Hcur in Ha. inversion Ha; subst. apply Hat. lia.
    + pose proof (ascending_lookup t h left j _ _ Hsorted ltac:(lia) Hcur Ha).
      specialize (Hat ltac:(lia)). lia.
Qed.

(** Every sample of a sorted series is at least as far from the target as
    one of the two candidates. *)
Lemma candidates_bound (h : list PricePoint) (target : Z) (other : PricePoint) :
  ascending t h → other ∈ h →
  let left := searchInsertionPoint h target 0 (length h) in
  ((left < length h)%nat ∧
     Z.abs (t (h !!! left) - target) ≤ Z.abs (t other - target)) ∨
  ((0 < left)%nat ∧
     Z.abs (t (h !!! (left - 1)%nat) - target) ≤ Z.abs (t other - target)).
Proof.
  intros Hsorted Hin left.
  destruct (searchInsertionPoint_sorted h target Hsorted) as (Hlen & Hbelow & Hat).
  fold left in Hlen, Hbelow, Hat.
  apply list_elem_of_lookup in Hin as [j Hj].
  pose proof (lookup_lt_Some _ _ _ Hj) as Hjlen.
  destruct (decide (j < left)%nat) as [Hlt|Hge].
  - right. split; [lia|].
    assert (Hprev : h !! (left - 1)%nat = Some (h !!! (left - 1)%nat)).
    { apply list_lookup_lookup_total_lt. lia. }
    pose proof (Hbelow _ _ Hlt Hj). pose proof (Hbelow (left - 1)%nat _ ltac:(lia) Hprev).
    destruct (decide (j = left - 1)%nat) as [->|Hne].
    + rewrite Hprev in Hj. inversion Hj; subst. lia.
    + pose proof (ascending_lookup t h j (left - 1) _ _ Hsorted ltac:(lia) Hj Hprev). lia.
  - left. split; [lia|].
    assert (Hcur : h !! left = Some (h !!! left)).
    { apply list_lookup_lookup_total_lt. lia. }
    pose proof (Hat j _ ltac:(lia) Hj). pose proof (Hat left _ ltac:(lia) Hcur).
    destruct (decide (j = left)) as [->|Hne].
    + rewrite Hcur in Hj. inversion Hj; subst. lia.
    + pose proof (ascending_lookup t h left j _ _ Hsorted ltac:(lia) Hcur Hj). lia.
Qed.

Lemma findNearestPrice_nearestPoint (h : list PricePoint) (target w : Z) :
  findNearestPrice h target w = p <$> nearestPoint h target w.
Proof.
  unfold findNearestPrice, nearestPoint.
  pose proof (searchInsertionPoint_local h target 0 (length h) (Nat.le_0_l _)) as (Hr & _ & _).
  set (left := searchInsertionPoint h target 0 (length h)) in *.
  destruct (decide (length h = 0%nat)) as [Hnil|Hne].
  { repeat case_decide; try lia; done. }
  f_equal. unfold considerCandidate.
  repeat case_decide; simpl; repeat case_bool_decide; simpl;
    try done; try lia; repeat case_bool_decide; simpl; try done; try lia.
Qed.

(** ** C1 and C10: the nearest sample *)

(** C1. On a series sorted ascending by [t], a value returned by
    [findNearestPrice] is the price of a sample whose timestamp is within the
    tolerance of the target, and no sample of the series is strictly closer
    to the target. *)
Theorem findNearestPrice_within_tolerance_and_minimal
    (h : list PricePoint) (target w : Z) (price : float) :
  ascending t h →
  findNearestPrice h target w = Some price →
  ∃ point : PricePoint,
    point ∈ h ∧ p point = price ∧
    Z.abs (t point - target) ≤ w ∧
    ∀ other : PricePoint, other ∈ h →
      Z.abs (t point - target) ≤ Z.abs (t other - target).
Proof.
  intros Hsorted. rewrite findNearestPrice_nearestPoint.
  destruct (nearestPoint h target w) as [point|] eqn:Hnearest; [|done].
  intros [= <-]. exists point.
  assert (Hbound := λ other Hin, candidates_bound h target other Hsorted Hin).
  cbv zeta in Hbound. unfold nearestPoint in Hnearest.
  pose proof (searchInsertionPoint_local h target 0 (length h) (Nat.le_0_l _)) as (Hr & _ & _).
  set (left := searchInsertionPoint h target 0 (length h)) in *.
  assert (Hmem : ∀ i : nat, (i < length h)%nat → h !!! i ∈ h).
  { intros i Hi. by apply list_elem_of_lookup_total_2. }
  repeat case_decide; try done; injection Hnearest as <-;
    (split; [apply Hmem; lia|]); (split; [done|]); (split; [lia|]);
    intros other Hin; destruct (Hbound other Hin) as [[? ?]|[? ?]]; lia.
Qed.

Lemma findNearestPrice_within_tolerance_and_minimal_witness :
  ∃ point : PricePoint,
    point ∈ [mkPricePoint 10 0.3; mkPricePoint 20 0.4] ∧ p point = 0.3%float ∧
    Z.abs (t point - 14) ≤ 270 ∧
    ∀ other : PricePoint, other ∈ [mkPricePoint 10 0.3; mkPricePoint 20 0.4] →
      Z.abs (t point - 14) ≤ Z.abs (t other - 14).
Proof.
  apply (findNearestPrice_within_tolerance_and_minimal
           [mkPricePoint 10 0.3; mkPricePoint 20 0.4] 14 270 0.3%float).
  - refine (bool_decide_unpack (ascending t _) _). vm_compute. exact I.
  - vm_compute. reflexivity.
Defined.

(** On a sorted series, the search stops between a sample below the target
    and a following sample that is not below it. *)
Lemma searchInsertionPoint_between (before after : list PricePoint) (a b : PricePoint)
    (target : Z) :
  ascending t (before ++ a :: b :: after) →
  t a < target ≤ t b →
  searchInsertionPoint (before ++ a :: b :: after) target 0
    (length (before ++ a :: b :: after)) = S (length before).
Proof.
  intros Hsorted [Ha Hb]. set (h := before ++ a :: b :: after) in *.
  destruct (searchInsertionPoint_sorted h target Hsorted) as (Hlen & Hbelow & Hat).
  set (left := searchInsertionPoint h target 0 (length h)) in *.
  assert (Hia : h !! length before = Some a).
  { unfold h. by rewrite list_lookup_middle. }
  assert (Hib : h !! S (length before) = Some b).
  { unfold h. rewrite (lookup_app_r before) by lia.
    by replace (S (length before) - length before)%nat with 1%nat by lia. }
  destruct (decide (left ≤ length before)%nat) as [Hlow|Hlow].
  { pose proof (Hat _ _ Hlow Hia). lia. }
  destruct (decide (S (length before) < left)%nat) as [Hhigh|Hhigh].
  { pose proof (Hbelow _ _ Hhigh Hib). lia. }
  lia.
Qed.

(** C10. On a sorted series, when the sample at the insertion point and the
    sample just before it are equally far from the target and within the
    tolerance, [findNearestPrice] returns the price of the later one: the
    sample at the insertion point, whose timestamp is not below the target. *)
Theorem findNearestPrice_tie_returns_later
    (h : list PricePoint) (target w : Z) (a b : PricePoint) :
  ascending t h →
  (0 < searchInsertionPoint h target 0 (length h))%nat →
  h !! (searchInsertionPoint h target 0 (length h) - 1)%nat = Some a →
  h !! searchInsertionPoint h target 0 (length h) = Some b →
  Z.abs (t a - target) = Z.abs (t b - target) →
  Z.abs (t b - target) ≤ w →
  findNearestPrice h target w = Some (p b) ∧ t a < target ≤ t b.
Proof.
  intros Hsorted Hpos Ha Hb Htie Hw.
  destruct (searchInsertionPoint_sorted h target Hsorted) as (_ & Hbelow & Hat).
  rewrite findNearestPrice_nearestPoint. unfold nearestPoint.
  set (left := searchInsertionPoint h target 0 (length h)) in *.
  pose proof (lookup_lt_Some _ _ _ Hb) as Hlen.
  pose proof (Hbelow (left - 1)%nat a ltac:(lia) Ha) as Hlow.
  pose proof (Hat left b ltac:(lia) Hb) as Hhigh.
  rewrite (list_lookup_total_correct _ _ _ Hb), (list_lookup_total_correct _ _ _ Ha).
  split; [|lia].
  repeat case_decide; try done; lia.
Qed.

Lemma findNearestPrice_tie_returns_later_witness :
  findNearestPrice seriesA 15 270 = Some 0.4%float ∧ 10 < 15 ≤ 20.
Proof.
  apply (findNearestPrice_tie_returns_later seriesA 15 270
           (mkPricePoint 10 0.3) (mkPricePoint 20 0.4)).
  - refine (bool_decide_unpack (ascending t _) _). vm_compute. exact I.
  - vm_compute. lia.
  - vm_compute. reflexivity.
  - vm_compute. reflexivity.
  - reflexivity.
  - simpl. lia.
Defined.

(** With distances 4 and 6 instead, the earlier sample wins. *)
Example findNearestPrice_closer_earlier : findNearestPrice seriesA 14 270 = Some 0.3%float.
Proof. vm_compute. reflexivity. Qed.

(** ** C3: the sum of a row *)

Lemma string_length_app (s1 s2 : string) :
  String.length (s1 +:+ s2) = (String.length s1 + String.length s2)%nat.
Proof. induction s1 as [|c s1 IH]; simpl; [done|]. by rewrite IH. Qed.

(** A bet key ends in ["-YES"] or ["-NO"]; it is not the property ["sum"]. *)
Lemma generateBetKey_not_sum (marketId : string) (ty : BetType) :
  generateBetKey marketId ty ≠ "sum".
Proof.
  unfold generateBetKey. intros Heq.
  pose proof (f_equal String.length Heq) as Hlen.
  rewrite !string_length_app in Hlen.
  destruct marketId as [|c marketId], ty; simpl in Hlen; try lia. discriminate Heq.
Qed.

Lemma cryptoName_not_sum (crypto : CryptoOption) : cryptoName crypto ≠ "sum".
Proof. by destruct crypto. Qed.

Section Rows.
Context (st : State) (ts : Z).

Lemma nearestAt_cons (k : string) (keys : list string) :
  omap (nearestAt st ts) (k :: keys) =
  match nearestAt st ts k with
  | Some price => price :: omap (nearestAt st ts) keys
  | None => omap (nearestAt st ts) keys
  end.
Proof. reflexivity. Qed.

Lemma fillBet_nearestAt (acc : gmap string float * float * nat) (k : string) :
  fillBet st ts acc k =
  match nearestAt st ts k with
  | Some price => (<[k := price]> acc.1.1, (acc.1.2 + price)%float, S acc.2)
  | None => acc
  end.
Proof. unfold fillBet, nearestAt. by destruct (priceHistories st !! k). Qed.

Lemma foldl_fillBet_count (keys : list string) (acc : gmap string float * float * nat) :
  (foldl (fillBet st ts) acc keys).2 = (acc.2 + length (omap (nearestAt st ts) keys))%nat.
Proof.
  revert acc. induction keys as [|k keys IH]; intros acc; [simpl; lia|].
  cbn [foldl]. rewrite IH, nearestAt_cons, fillBet_nearestAt.
  destruct (nearestAt st ts k); simpl; lia.
Qed.

Lemma foldl_fillBet_sum (keys : list string) (acc : gmap string float * float * nat) :
  (foldl (fillBet st ts) acc keys).1.2 =
  foldl PrimFloat.add acc.1.2 (omap (nearestAt st ts) keys).
Proof.
  revert acc. induction keys as [|k keys IH]; intros acc; [done|].
  cbn [foldl]. rewrite IH, nearestAt_cons, fillBet_nearestAt.
  by destruct (nearestAt st ts k).
Qed.

Lemma foldl_fillBet_other (keys : list string) (acc : gmap string float * float * nat)
    (k : string) :
  k ∉ keys → (foldl (fillBet st ts) acc keys).1.1 !! k = acc.1.1 !! k.
Proof.
  revert acc. induction keys as [|k' keys IH]; intros acc Hnot; simpl; [done|].
  apply not_elem_of_cons in Hnot as [Hne Hnot]. rewrite IH, fillBet_nearestAt by done.
  destruct (nearestAt st ts k'); [|done].
  simpl. by rewrite lookup_insert_ne.
Qed.

(** Every key yields a value exactly when the count of values is the
    number of keys. *)
Lemma omap_length_all {A B : Type} (f : A → option B) (l : list A) :
  (length (omap f l) ≤ length l)%nat ∧
  (length (omap f l) = length l ↔ ∀ x, x ∈ l → is_Some (f x)).
Proof.
  induction l as [|x l [IHle IHiff]].
  - split; [done|]. split; [|done]. intros _ x Hx. by apply elem_of_nil in Hx.
  - change (omap f (x :: l))
      with (match f x with Some y => y :: omap f l | None => omap f l end).
    destruct (f x) as [y|] eqn:Hfx; cbn [length].
    + split; [lia|]. split.
      * intros Hlen x' Hx'. apply elem_of_cons in Hx' as [->|Hx']; [by rewrite Hfx|].
        apply IHiff; [lia|done].
      * intros Hall. f_equal. apply IHiff. intros x' Hx'. apply Hall. by right.
    + split; [lia|]. split; [lia|].
      intros Hall. destruct (Hall x) as [y Hy]; [by left|]. congruence.
Qed.

(** The ["sum"] property of the row built for [ts]. *)
Lemma fillDataPoint_sum (crypto : CryptoOption) (keys : list string) :
  "sum" ∉ keys →
  fields (fillDataPoint crypto st keys ts) !! "sum" =
  if bool_decide (1 < length keys)%nat &&
     bool_decide (length (omap (nearestAt st ts) keys) = length keys)
  then Some (foldl PrimFloat.add 0%float (omap (nearestAt st ts) keys))
  else None.
Proof.
  intros Hnot. unfold fillDataPoint.
  pose proof (foldl_fillBet_count keys (∅, 0%float, 0%nat)) as Hcount.
  pose proof (foldl_fillBet_sum keys (∅, 0%float, 0%nat)) as Hsum.
  pose proof (foldl_fillBet_other keys (∅, 0%float, 0%nat) "sum" Hnot) as Hother.
  destruct (foldl (fillBet st ts) (∅, 0%float, 0%nat) keys) as [[dataPoint sum] valid].
  simpl in Hcount, Hsum, Hother. subst valid sum. rewrite lookup_empty in Hother.
  assert (Hcrypto : ∀ m : gmap string float,
    (if bool_decide (crypto ≠ NONE) && bool_decide (0 < length (cryptoPrices st))%nat
     then match findNearestPrice (cryptoPrices st) ts cryptoMaxDeltaSeconds with
          | Some cryptoPrice => <[cryptoName crypto := cryptoPrice]> m
          | None => m
          end
     else m) !! "sum" = m !! "sum").
  { intros m. destruct (_ && _); [|done].
    destruct (findNearestPrice _ _ _); [|done].
    apply lookup_insert_ne, cryptoName_not_sum. }
  cbn [fields]. rewrite Hcrypto. clear Hcrypto.
  destruct (_ && _); [apply lookup_insert_eq|done].
Qed.

Lemma fillDataPoint_timestamp (crypto : CryptoOption) (keys : list string) :
  timestamp (fillDataPoint crypto st keys ts) = ts.
Proof.
  unfold fillDataPoint.
  by destruct (foldl (fillBet st ts) (∅, 0%float, 0%nat) keys) as [[dataPoint sum] valid].
Qed.
End Rows.

(** C3. In every row of [chartData], ["sum"] is present exactly when at
    least two series are selected and every one of them yields a nearest
    value at the row's timestamp; it is then the sum of all these values,
    added in selection order starting from 0. *)
Theorem chartData_sum_iff_all_present (crypto : CryptoOption) (st : State)
    (row : ChartDataPoint) :
  Forall isBetKey (mapKeys (selectedBets st)) →
  row ∈ chartData crypto st →
  (is_Some (fields row !! "sum") ↔
     (2 ≤ length (mapKeys (selectedBets st)))%nat ∧
     ∀ k, k ∈ mapKeys (selectedBets st) → is_Some (nearestAt st (timestamp row) k)) ∧
  (∀ s : float, fields row !! "sum" = Some s →
     s = foldl PrimFloat.add 0%float
           (omap (nearestAt st (timestamp row)) (mapKeys (selectedBets st)))).
Proof.
  intros Hkeys Hrow. unfold chartData in Hrow.
  apply list_elem_of_fmap in Hrow as (ts & -> & _).
  set (keys := mapKeys (selectedBets st)) in *.
  assert (Hnot : "sum" ∉ keys).
  { intros Hin. rewrite Forall_forall in Hkeys.
    destruct (Hkeys _ Hin) as (marketId & ty & Heq).
    by eapply generateBetKey_not_sum. }
  rewrite fillDataPoint_timestamp, fillDataPoint_sum by done.
  destruct (omap_length_all (nearestAt st ts) keys) as [_ Hall].
  split.
  - rewrite <- Hall. repeat case_bool_decide; simpl; split;
      try (intros [? ?]; lia); try (intros [? [=]]); try done.
  - intros s. repeat case_bool_decide; simpl; intros [=]; done.
Qed.

Lemma chartData_sum_iff_all_present_witness :
  let row := fillDataPoint NONE twoSeriesState (mapKeys (selectedBets twoSeriesState)) 10 in
  (is_Some (fields row !! "sum") ↔
     (2 ≤ length (mapKeys (selectedBets twoSeriesState)))%nat ∧
     ∀ k, k ∈ mapKeys (selectedBets twoSeriesState) →
          is_Some (nearestAt twoSeriesState (timestamp row) k)) ∧
  (∀ s : float, fields row !! "sum" = Some s →
     s = foldl PrimFloat.add 0%float
           (omap (nearestAt twoSeriesState (timestamp row))
              (mapKeys (selectedBets twoSeriesState)))).
Proof.
  apply (chartData_sum_iff_all_present NONE twoSeriesState).
  - repeat constructor; eexists _, _; reflexivity.
  - unfold chartData. apply list_elem_of_fmap. exists 10. split; [reflexivity|].
    vm_compute. left.
Defined.

(** ** C8: the two-series example *)

Example timeRange_twoSeries : timeRange twoSeriesState = Some (mkRange 10 20).
Proof. vm_compute. reflexivity. Qed.

Example chartData_twoSeries_timestamps :
  timestamp <$> chartData NONE twoSeriesState = [10; 20].
Proof. vm_compute. reflexivity. Qed.

(** At 20 the only sample of B, at 10, is 10 seconds away: B is present. *)
Example nearestAt_B_at_20 :
  nearestAt twoSeriesState 20 (generateBetKey "B" YES) = Some 0.6%float.
Proof. vm_compute. reflexivity. Qed.

(** Prices are binary64 numbers: [0 + 0.3 + 0.6] is not the number written [0.9]. *)
Example sum_0_3_0_6 :
  (0 + 0.3 + 0.6)%float = 0x1.cccccccccccccp-1%float ∧
  (0 + 0.3 + 0.6)%float ≠ 0.9%float.
Proof. split; vm_compute; [reflexivity|discriminate]. Qed.

(** C8, as stated, fails: with A = {10: 0.3, 20: 0.4}, B = {10: 0.6} and the
    tolerance of 270 seconds it is not the case that the row at 10 has sum
    0.9 and the row at 20 has no sum. *)
Lemma chartData_twoSeries_claim_fails :
  ¬ (sumAt (chartData NONE twoSeriesState) 10 = Some 0.9%float ∧
     sumAt (chartData NONE twoSeriesState) 20 = None).
Proof. vm_compute. intros [_ Hnone]. discriminate Hnone. Qed.

(** C8, amended. The row at 10 has the sum [0.3 + 0.6] and the row at 20
    has the sum [0.4 + 0.6], which is 1: B's sample at 10 is within 270
    seconds of 20, so B is present there. *)
Theorem chartData_twoSeries_sums :
  sumAt (chartData NONE twoSeriesState) 10 = Some (0 + 0.3 + 0.6)%float ∧
  sumAt (chartData NONE twoSeriesState) 20 = Some (0 + 0.4 + 0.6)%float ∧
  (0 + 0.4 + 0.6)%float = 1%float.
Proof. vm_compute. done. Qed.

(** ** C7 and C9: [handleBetToggle] *)

Section JsMapFacts.
Context {V : Type}.

Lemma mapHas_false (k : string) (m : list (string * V)) :
  mapHas k m = false ↔ k ∉ mapKeys m.
Proof. unfold mapHas. by rewrite bool_decide_eq_false. Qed.

Lemma mapDelete_absent (k : string) (m : list (string * V)) :
  k ∉ mapKeys m → mapDelete k m = m.
Proof.
  unfold mapDelete, mapKeys. induction m as [|[k' v] m IH]; intros Hnot; [done|].
  rewrite fmap_cons in Hnot. apply not_elem_of_cons in Hnot as [Hne Hnot].
  rewrite filter_cons_True by (simpl; naive_solver). by rewrite IH.
Qed.

Lemma mapKeys_mapDelete (k : string) (m : list (string * V)) :
  mapKeys (mapDelete k m) ⊆ mapKeys m.
Proof.
  unfold mapKeys, mapDelete. intros k' Hin.
  apply list_elem_of_fmap in Hin as (kv & -> & Hkv).
  apply list_elem_of_filter in Hkv as [_ Hkv]. by apply list_elem_of_fmap_2.
Qed.

Lemma mapKeys_mapSet (k : string) (v : V) (m : list (string * V)) (k' : string) :
  k' ∈ mapKeys (mapSet k v m) → k' = k ∨ k' ∈ mapKeys m.
Proof.
  unfold mapSet, mapKeys. destruct (mapHas k m).
  - intros Hin. apply list_elem_of_fmap in Hin as (kv & -> & Hkv).
    apply list_elem_of_fmap in Hkv as (kv' & -> & Hkv').
    case_decide; [by left|]. right. by apply list_elem_of_fmap_2.
  - rewrite fmap_app. intros Hin. apply elem_of_app in Hin as [Hin|Hin]; [by right|].
    left. by apply list_elem_of_singleton in Hin.
Qed.

(** Adding a new key and deleting it again gives the map back. *)
Lemma mapDelete_mapSet_absent (k : string) (v : V) (m : list (string * V)) :
  k ∉ mapKeys m → mapDelete k (mapSet k v m) = m.
Proof.
  intros Hnot. unfold mapSet. rewrite (proj2 (mapHas_false k m) Hnot).
  unfold mapDelete. rewrite filter_app, filter_cons_False, filter_nil by (simpl; tauto).
  rewrite app_nil_r. by apply mapDelete_absent.
Qed.
End JsMapFacts.

Section ToggleFacts.
Variable fetchPriceHistory : PriceHistoryRequest → option PriceHistory.

(** A fetch is issued exactly when the key is neither selected nor stored. *)
Lemma handleBetToggle_requests (market : ParsedMarket) (ty : BetType) (st : State)
    (req : PriceHistoryRequest) :
  (handleBetToggle fetchPriceHistory market ty st).2 = [req] →
  (generateBetKey (id market) ty ∉ mapKeys (selectedBets st)) ∧
  priceHistories st !! generateBetKey (id market) ty = None ∧
  req = mkPriceHistoryRequest
          (match ty with YES => yesTokenId market | NO => noTokenId market end)
          (pretty (startDate market)) 10.
Proof.
  unfold handleBetToggle.
  destruct (mapHas _ (selectedBets st)) eqn:Hhas; simpl; [done|].
  case_bool_decide as Hstored; simpl; [done|].
  intros [= <-]. apply mapHas_false in Hhas.
  split; [done|]. split; [|done].
  by apply eq_None_not_Some.
Qed.

(** Every key of the selection is a bet key, click after click: this is the
    shape of the keys the row builder reads. *)
Lemma handleBetToggle_keys_are_bet_keys (market : ParsedMarket) (ty : BetType) (st : State) :
  Forall isBetKey (mapKeys (selectedBets st)) →
  Forall isBetKey (mapKeys (selectedBets (handleBetToggle fetchPriceHistory market ty st).1)).
Proof.
  intros Hkeys. rewrite Forall_forall in Hkeys.
  assert (Htoggled : ∀ bet k,
    k ∈ mapKeys (toggleSelection (generateBetKey (id market) ty) bet (selectedBets st)) →
    isBetKey k).
  { intros bet k. unfold toggleSelection. destruct (mapHas _ (selectedBets st)).
    - intros Hin. by apply Hkeys, (mapKeys_mapDelete _ _ _ Hin).
    - intros Hin. apply mapKeys_mapSet in Hin as [->|Hin]; [by eexists _, _|by apply Hkeys]. }
  apply Forall_forall. intros k. unfold handleBetToggle.
  destruct (negb _ && negb _); simpl; [|by apply Htoggled].
  destruct (fetchPriceHistory _); simpl; [by apply Htoggled|].
  intros Hin. by eapply Htoggled, mapKeys_mapDelete.
Qed.

(** C7. When the fetch issued for a newly selected key fails, the selection
    is what it was before the click, the stored histories are untouched,
    and the error names the market question and the side. *)
Theorem handleBetToggle_failed_fetch_rolls_back (market : ParsedMarket) (ty : BetType)
    (st : State) (req : PriceHistoryRequest) :
  (handleBetToggle fetchPriceHistory market ty st).2 = [req] →
  fetchPriceHistory req = None →
  selectedBets (handleBetToggle fetchPriceHistory market ty st).1 = selectedBets st ∧
  priceHistories (handleBetToggle fetchPriceHistory market ty st).1 = priceHistories st ∧
  error (handleBetToggle fetchPriceHistory market ty st).1 =
    Some ("Failed to fetch price history for " +:+ question market +:+
          " (" +:+ typeName ty +:+ ")").
Proof.
  intros Hreq Hfail.
  destruct (handleBetToggle_requests market ty st req Hreq) as (Hnot & Hnone & ->).
  unfold handleBetToggle.
  rewrite (proj2 (mapHas_false _ _) Hnot), Hnone, Hfail. simpl.
  split; [|done].
  unfold toggleSelection. rewrite (proj2 (mapHas_false _ _) Hnot).
  by apply mapDelete_mapSet_absent.
Qed.

(** A stored history is never removed or replaced by a click. *)
Lemma handleBetToggle_keeps_stored (market : ParsedMarket) (ty : BetType) (st : State)
    (k : string) (h : list PricePoint) :
  priceHistories st !! k = Some h →
  priceHistories (handleBetToggle fetchPriceHistory market ty st).1 !! k = Some h.
Proof.
  intros Hk. unfold handleBetToggle.
  destruct (mapHas _ (selectedBets st)); simpl; [done|].
  case_bool_decide as Hstored; simpl; [done|].
  destruct (fetchPriceHistory _); simpl; [|done].
  rewrite lookup_insert_ne; [done|].
  intros <-. apply Hstored. by rewrite Hk.
Qed.

Lemma handleBetToggles_keep_stored (clicks : list (ParsedMarket * BetType)) (st : State)
    (k : string) (h : list PricePoint) :
  priceHistories st !! k = Some h →
  priceHistories (handleBetToggles fetchPriceHistory clicks st) !! k = Some h.
Proof.
  revert st. induction clicks as [|[market ty] clicks IH]; intros st Hk; [done|].
  apply IH. by apply handleBetToggle_keeps_stored.
Qed.

(** C9. Once the history of a key is stored, a click on that key issues no
    fetch, whatever clicks (deselections included) happened in between,
    and the stored history is still the same one. *)
Theorem handleBetToggle_stored_key_not_refetched
    (clicks : list (ParsedMarket * BetType)) (market : ParsedMarket) (ty : BetType)
    (st : State) (h : list PricePoint) :
  priceHistories st !! generateBetKey (id market) ty = Some h →
  (handleBetToggle fetchPriceHistory market ty
     (handleBetToggles fetchPriceHistory clicks st)).2 = [] ∧
  priceHistories
    (handleBetToggle fetchPriceHistory market ty
       (handleBetToggles fetchPriceHistory clicks st)).1
    !! generateBetKey (id market) ty = Some h.
Proof.
  intros Hstored.
  pose proof (handleBetToggles_keep_stored clicks st _ _ Hstored) as Hlater.
  split; [|by apply handleBetToggle_keeps_stored].
  unfold handleBetToggle. rewrite Hlater.
  by rewrite bool_decide_eq_true_2, andb_false_r by done.
Qed.
End ToggleFacts.

Lemma handleBetToggle_failed_fetch_rolls_back_witness :
  selectedBets (handleBetToggle failingPriceHistory someMarket YES twoSeriesState).1
    = selectedBets twoSeriesState ∧
  priceHistories (handleBetToggle failingPriceHistory someMarket YES twoSeriesState).1
    = priceHistories twoSeriesState ∧
  error (handleBetToggle failingPriceHistory someMarket YES twoSeriesState).1
    = Some "Failed to fetch price history for Will it rain? (YES)".
Proof.
  apply (handleBetToggle_failed_fetch_rolls_back failingPriceHistory someMarket YES
           twoSeriesState (mkPriceHistoryRequest "tokenYes" "1700000000" 10)).
  - vm_compute. reflexivity.
  - reflexivity.
Defined.

Lemma handleBetToggle_stored_key_not_refetched_witness :
  let fetch := constantPriceHistory seriesA in
  let st := (handleBetToggle fetch someMarket YES initialState).1 in
  (handleBetToggle fetch someMarket YES
     (handleBetToggles fetch [(someMarket, YES)] st)).2 = [] ∧
  priceHistories
    (handleBetToggle fetch someMarket YES
       (handleBetToggles fetch [(someMarket, YES)] st)).1
    !! generateBetKey (id someMarket) YES = Some seriesA.
Proof.
  apply (handleBetToggle_stored_key_not_refetched (constantPriceHistory seriesA)
           [(someMarket, YES)] someMarket YES).
  vm_compute. reflexivity.
Defined.

(** The session of the witness: select, deselect, select again. *)
Example reselect_session :
  let fetch := constantPriceHistory seriesA in
  let st1 := handleBetToggle fetch someMarket YES initialState in
  let st2 := handleBetToggle fetch someMarket YES st1.1 in
  let st3 := handleBetToggle fetch someMarket YES st2.1 in
  length st1.2 = 1%nat ∧ mapKeys (selectedBets st1.1) = ["C-YES"] ∧
  st2.2 = [] ∧ mapKeys (selectedBets st2.1) = [] ∧
  st3.2 = [] ∧ mapKeys (selectedBets st3.1) = ["C-YES"].
Proof. vm_compute. done. Qed.

(** ** C2, C4, C5 and C6: the crypto range cache *)

Example coveredState_is :
  cryptoCacheRef coveredState = Some (mkCryptoCache BTC 100 200) ∧
  cryptoPrices coveredState = [mkPricePoint 100 1; mkPricePoint 200 2].
Proof. vm_compute. done. Qed.

Example coveredEmptyState_is :
  cryptoCacheRef coveredEmptyState = Some (mkCryptoCache BTC 100 200) ∧
  cryptoPrices coveredEmptyState = [].
Proof. vm_compute. done. Qed.

Section CacheFacts.
Variable allKlines : CryptoRequest → option (list PricePoint).

Lemma fetchCryptoPriceHistory_ascending (req : CryptoRequest) (prices : list PricePoint) :
  fetchCryptoPriceHistory allKlines req = Some prices → ascending t prices.
Proof.
  unfold fetchCryptoPriceHistory. destruct (allKlines req); intros [= <-].
  apply sortBy_ascending.
Qed.

(** The branch [fetchCrypto] takes with a cache of the same kind and a
    stored series that is not empty. *)
Lemma fetchCrypto_with_coverage (crypto : CryptoOption) (range : Range)
    (cache : CryptoCache) (st : State) :
  cryptoCacheRef st = Some cache → cacheCrypto cache = crypto → cryptoPrices st ≠ [] →
  fetchCrypto allKlines crypto range st = fetchMissingRanges allKlines crypto range cache st.
Proof.
  intros Hcache Hkind Hprices. unfold fetchCrypto. rewrite Hcache.
  rewrite bool_decide_eq_false_2 by (intros Hne; by apply Hne).
  rewrite bool_decide_eq_false_2; [done|].
  by destruct (cryptoPrices st).
Qed.

(** The branch it takes otherwise. *)
Lemma fetchCrypto_without_coverage (crypto : CryptoOption) (range : Range) (st : State) :
  (cryptoCacheRef st = None ∨
   (∃ cache, cryptoCacheRef st = Some cache ∧ cacheCrypto cache ≠ crypto) ∨
   cryptoPrices st = []) →
  fetchCrypto allKlines crypto range st = fetchEntireRange allKlines crypto range st.
Proof.
  unfold fetchCrypto. intros [Hnone|[(cache & Hcache & Hkind)|Hempty]].
  - by rewrite Hnone.
  - rewrite Hcache. by rewrite bool_decide_eq_true_2.
  - destruct (cryptoCacheRef st); [|done].
    rewrite (bool_decide_eq_true_2 (length _ = 0%nat)) by (by rewrite Hempty).
    by rewrite orb_true_r.
Qed.

(** With a kind selected and a time range, the effect runs [fetchCrypto];
    otherwise it empties the stored series and drops the cache. *)
Lemma cryptoEffect_fetches (crypto : CryptoOption) (range : Range) (st : State) :
  crypto ≠ NONE →
  cryptoEffect allKlines crypto (Some range) st = fetchCrypto allKlines crypto range st.
Proof. intros Hkind. unfold cryptoEffect. by rewrite decide_False. Qed.

Lemma clearCrypto_empty (st : State) :
  cryptoCacheRef (clearCrypto st) = None ∧ cryptoPrices (clearCrypto st) = [].
Proof.
  unfold clearCrypto. split; [done|].
  destruct (cryptoPrices st) as [|x prices] eqn:Hprices; simpl; [by rewrite Hprices|done].
Qed.

Lemma cryptoEffect_resets (crypto : CryptoOption) (range : option Range) (st : State) :
  crypto = NONE ∨ range = None →
  cryptoEffect allKlines crypto range st = (clearCrypto st, []).
Proof.
  unfold cryptoEffect. intros [-> | ->]; [|done]. by destruct range.
Qed.


(** A request inside the covered interval of a non-empty cache of the
    same kind is a pure hit. *)
Lemma fetchCrypto_hit (crypto : CryptoOption) (range : Range) (cache : CryptoCache)
    (st : State) :
  cryptoCacheRef st = Some cache → cacheCrypto cache = crypto → cryptoPrices st ≠ [] →
  cacheMin cache ≤ rangeMin range → rangeMax range ≤ cacheMax cache →
  fetchCrypto allKlines crypto range st = (st, []).
Proof.
  intros Hcache Hkind Hprices Hmin Hmax.
  rewrite (fetchCrypto_with_coverage crypto range cache) by done.
  unfold fetchMissingRanges.
  rewrite !bool_decide_eq_true_2 by lia. done.
Qed.

Lemma fetchRanges_nonempty (range : Range) (cache : CryptoCache) :
  ¬ (cacheMin cache ≤ rangeMin range ∧ rangeMax range ≤ cacheMax cache) →
  fetchRanges range cache ≠ [].
Proof.
  intros Hout. unfold fetchRanges. repeat case_decide; try done. lia.
Qed.

(** The delta branch, spelled out. *)
Lemma fetchMissingRanges_miss (crypto : CryptoOption) (range : Range)
    (cache : CryptoCache) (st : State) :
  ¬ (cacheMin cache ≤ rangeMin range ∧ rangeMax range ≤ cacheMax cache) →
  fetchMissingRanges allKlines crypto range cache st =
  match mapM (fetchCryptoPriceHistory allKlines)
          (rangeRequest crypto <$> fetchRanges range cache) with
  | Some newPricesArrays =>
      (setLoadingCrypto false
         (setCryptoCacheRef
            (Some (mkCryptoCache crypto
                     (Z.min (rangeMin range) (cacheMin cache))
                     (Z.max (rangeMax range) (cacheMax cache))))
            (setCryptoPrices
               (dedupe (sortBy t (cryptoPrices st ++ concat newPricesArrays)))
               (setLoadingCrypto true st))),
       rangeRequest crypto <$> fetchRanges range cache)
  | None =>
      (setLoadingCrypto false
         (setError (Some (cryptoErrorMessage crypto)) (setLoadingCrypto true st)),
       rangeRequest crypto <$> fetchRanges range cache)
  end.
Proof.
  intros Hout. unfold fetchMissingRanges.
  pose proof (fetchRanges_nonempty range cache Hout) as Hne.
  destruct (bool_decide (rangeMin range >= cacheMin cache)) eqn:Hmin;
    destruct (bool_decide (rangeMax range ≤ cacheMax cache)) eqn:Hmax; simpl;
    try (apply bool_decide_eq_true_1 in Hmin; apply bool_decide_eq_true_1 in Hmax; lia).
  all: destruct (decide (length (fetchRanges range cache) = 0%nat)) as [Hlen|Hlen];
    [by apply nil_length_inv in Hlen|done].
Qed.

(** C2, amended. With coverage of [100, 200] for the current kind and a
    stored series that is not empty, a request for [50, 250] issues exactly
    the two requests [50, 100] and [200, 250]; when both succeed the covered
    interval is [50, 250] and the stored series, the filtered sorted merge
    of the old series and the two results, is ascending by [t] with no
    timestamp twice. *)
Theorem fetchCrypto_extends_both_sides (crypto : CryptoOption) (st : State) :
  cryptoCacheRef st = Some (mkCryptoCache crypto 100 200) →
  cryptoPrices st ≠ [] →
  (fetchCrypto allKlines crypto (mkRange 50 250) st).2 =
    [mkCryptoRequest crypto 50 100; mkCryptoRequest crypto 200 250] ∧
  ∀ before after : list PricePoint,
    fetchCryptoPriceHistory allKlines (mkCryptoRequest crypto 50 100) = Some before →
    fetchCryptoPriceHistory allKlines (mkCryptoRequest crypto 200 250) = Some after →
    cryptoCacheRef (fetchCrypto allKlines crypto (mkRange 50 250) st).1 =
      Some (mkCryptoCache crypto 50 250) ∧
    cryptoPrices (fetchCrypto allKlines crypto (mkRange 50 250) st).1 =
      dedupe (sortBy t (cryptoPrices st ++ before ++ after)) ∧
    strictlyAscending t (cryptoPrices (fetchCrypto allKlines crypto (mkRange 50 250) st).1) ∧
    NoDup (t <$> cryptoPrices (fetchCrypto allKlines crypto (mkRange 50 250) st).1).
Proof.
  intros Hcache Hprices.
  rewrite (fetchCrypto_with_coverage crypto _ _ st Hcache) by done.
  rewrite fetchMissingRanges_miss by (simpl; lia).
  change (rangeRequest crypto <$> fetchRanges (mkRange 50 250) (mkCryptoCache crypto 100 200))
    with [mkCryptoRequest crypto 50 100; mkCryptoRequest crypto 200 250].
  split; [by destruct (mapM _ _)|].
  intros before after Hbefore Hafter.
  assert (Hboth : mapM (fetchCryptoPriceHistory allKlines)
            [mkCryptoRequest crypto 50 100; mkCryptoRequest crypto 200 250]
          = Some [before; after]).
  { apply mapM_Some. by repeat constructor. }
  rewrite Hboth. cbn [fst cryptoCacheRef cryptoPrices setLoadingCrypto setCryptoCacheRef
    setCryptoPrices concat cacheMin cacheMax rangeMin rangeMax].
  rewrite app_nil_r.
  assert (Hstrict : strictlyAscending t (dedupe (sortBy t (cryptoPrices st ++ before ++ after)))).
  { apply dedupe_strictlyAscending, sortBy_ascending. }
  split; [done|]. split; [done|]. split; [done|].
  by apply strictlyAscending_NoDup.
Qed.

(** C4. When a request issued by [fetchCrypto] fails, the stored series
    and the covered bounds are what they were, and running it again for the
    same range issues the same requests. *)
Theorem fetchCrypto_failure_keeps_coverage (crypto : CryptoOption) (range : Range)
    (st : State) :
  Exists (λ req, fetchCryptoPriceHistory allKlines req = None)
    (fetchCrypto allKlines crypto range st).2 →
  cryptoPrices (fetchCrypto allKlines crypto range st).1 = cryptoPrices st ∧
  cryptoCacheRef (fetchCrypto allKlines crypto range st).1 = cryptoCacheRef st ∧
  (fetchCrypto allKlines crypto range (fetchCrypto allKlines crypto range st).1).2 =
    (fetchCrypto allKlines crypto range st).2.
Proof.
  intros Hfail.
  assert (Hext : ∀ st1 st2 : State,
    cryptoCacheRef st1 = cryptoCacheRef st2 → cryptoPrices st1 = cryptoPrices st2 →
    (fetchCrypto allKlines crypto range st1).2 = (fetchCrypto allKlines crypto range st2).2).
  { intros st1 st2 Hc Hp. unfold fetchCrypto, fetchEntireRange, fetchMissingRanges.
    rewrite Hc, Hp. destruct (cryptoCacheRef st2); [|by destruct (fetchCryptoPriceHistory _ _)].
    destruct (_ || _); [by destruct (fetchCryptoPriceHistory _ _)|].
    destruct (_ && _); [done|]. case_decide; [done|]. by destruct (mapM _ _). }
  assert (Hkept :
    cryptoPrices (fetchCrypto allKlines crypto range st).1 = cryptoPrices st ∧
    cryptoCacheRef (fetchCrypto allKlines crypto range st).1 = cryptoCacheRef st).
  { revert Hfail. unfold fetchCrypto, fetchEntireRange, fetchMissingRanges.
    destruct (cryptoCacheRef st) as [cache|] eqn:Hcache.
    - destruct (_ || _).
      + destruct (fetchCryptoPriceHistory _ _) eqn:Hfetch; simpl; [|by rewrite Hcache].
        intros Hfail. apply Exists_cons in Hfail as [Hfail|Hfail]; [congruence|].
        by apply Exists_nil in Hfail.
      + destruct (_ && _); simpl; [by rewrite Hcache|].
        case_decide; simpl; [by rewrite Hcache|].
        destruct (mapM _ _) eqn:Hall; simpl; [|by rewrite Hcache].
        intros Hfail. apply mapM_None_2 in Hfail. congruence.
    - destruct (fetchCryptoPriceHistory _ _) eqn:Hfetch; simpl; [|by rewrite Hcache].
      intros Hfail. apply Exists_cons in Hfail as [Hfail|Hfail]; [congruence|].
      by apply Exists_nil in Hfail. }
  destruct Hkept as [Hp Hc]. split; [done|]. split; [done|]. by apply Hext.
Qed.

(** C5, amended. After [fetchCrypto] has run for a range with every
    request it issued successful, and with a stored series that is not
    empty, the cache covers the range, and running it again for a range
    inside the covered interval issues no request and changes nothing. *)
Theorem fetchCrypto_again_is_hit (crypto : CryptoOption) (range : Range) (st : State) :
  Forall (λ req, is_Some (fetchCryptoPriceHistory allKlines req))
    (fetchCrypto allKlines crypto range st).2 →
  cryptoPrices (fetchCrypto allKlines crypto range st).1 ≠ [] →
  ∃ cache : CryptoCache,
    cryptoCacheRef (fetchCrypto allKlines crypto range st).1 = Some cache ∧
    cacheMin cache ≤ rangeMin range ∧ rangeMax range ≤ cacheMax cache ∧
    ∀ again : Range,
      cacheMin cache ≤ rangeMin again → rangeMax again ≤ cacheMax cache →
      fetchCrypto allKlines crypto again (fetchCrypto allKlines crypto range st).1 =
        ((fetchCrypto allKlines crypto range st).1, []).
Proof.
  intros Hok Hprices.
  assert (Hcovered : ∃ cache : CryptoCache,
    cryptoCacheRef (fetchCrypto allKlines crypto range st).1 = Some cache ∧
    cacheCrypto cache = crypto ∧
    cacheMin cache ≤ rangeMin range ∧ rangeMax range ≤ cacheMax cache).
  { revert Hok Hprices. unfold fetchCrypto, fetchEntireRange.
    assert (Hentire : ∀ req : CryptoRequest,
      Forall (λ req, is_Some (fetchCryptoPriceHistory allKlines req)) [req] →
      is_Some (fetchCryptoPriceHistory allKlines req)).
    { intros req Hall. by apply Forall_cons in Hall as [? _]. }
    destruct (cryptoCacheRef st) as [cache|] eqn:Hcache.
    - destruct (bool_decide (cacheCrypto cache ≠ crypto)) eqn:Hkind; simpl.
      + destruct (fetchCryptoPriceHistory _ _) eqn:Hfetch; simpl.
        * intros _ _. eexists. split; [done|]. simpl. split; [done|lia].
        * intros Hall. apply Hentire in Hall as [? ?]. congruence.
      + apply bool_decide_eq_false_1 in Hkind.
        assert (Hsame : cacheCrypto cache = crypto).
        { destruct (decide (cacheCrypto cache = crypto)); [done|tauto]. }
        destruct (bool_decide (length (cryptoPrices st) = 0%nat)) eqn:Hlen.
        * destruct (fetchCryptoPriceHistory _ _) eqn:Hfetch; simpl.
          -- intros _ _. eexists. split; [done|]. simpl. split; [done|lia].
          -- intros Hall. apply Hentire in Hall as [? ?]. congruence.
        * destruct (decide (cacheMin cache ≤ rangeMin range ∧ rangeMax range ≤ cacheMax cache))
            as [Hin|Hout].
          -- unfold fetchMissingRanges. rewrite !bool_decide_eq_true_2 by lia. simpl.
             intros _ _. exists cache. split; [done|]. split; [done|]. lia.
          -- rewrite fetchMissingRanges_miss by done.
             destruct (mapM _ _) eqn:Hall; simpl.
             ++ intros _ _. eexists. split; [done|]. simpl. split; [done|lia].
             ++ intros Hsome. apply mapM_is_Some_2 in Hsome as [? ?]. congruence.
    - destruct (fetchCryptoPriceHistory _ _) eqn:Hfetch; simpl.
      + intros _ _. eexists. split; [done|]. simpl. split; [done|lia].
      + intros Hall. apply Hentire in Hall as [? ?]. congruence. }
  destruct Hcovered as (cache & Hcache & Hkind & Hmin & Hmax).
  exists cache. split; [done|]. split; [done|]. split; [done|].
  intros again Hamin Hamax. by apply (fetchCrypto_hit crypto again cache).
Qed.
End CacheFacts.



(** C2, as stated, fails: coverage of [100, 200] alone does not make the
    request for [50, 250] a pair of deltas.  When the first fetch returned no
    candle the stored series is empty, and the next request fetches the
    entire range [50, 250] in one request. *)
Lemma fetchCrypto_two_deltas_claim_fails :
  cryptoCacheRef coveredEmptyState = Some (mkCryptoCache BTC 100 200) ∧
  (fetchCrypto endCandles BTC (mkRange 50 250) coveredEmptyState).2 =
    [mkCryptoRequest BTC 50 250] ∧
  (fetchCrypto endCandles BTC (mkRange 50 250) coveredEmptyState).2 ≠
    [mkCryptoRequest BTC 50 100; mkCryptoRequest BTC 200 250].
Proof. vm_compute. split; [done|]. split; [done|]. discriminate. Qed.

Lemma fetchCrypto_extends_both_sides_witness :
  (fetchCrypto endCandles BTC (mkRange 50 250) coveredState).2 =
    [mkCryptoRequest BTC 50 100; mkCryptoRequest BTC 200 250] ∧
  ∀ before after : list PricePoint,
    fetchCryptoPriceHistory endCandles (mkCryptoRequest BTC 50 100) = Some before →
    fetchCryptoPriceHistory endCandles (mkCryptoRequest BTC 200 250) = Some after →
    cryptoCacheRef (fetchCrypto endCandles BTC (mkRange 50 250) coveredState).1 =
      Some (mkCryptoCache BTC 50 250) ∧
    cryptoPrices (fetchCrypto endCandles BTC (mkRange 50 250) coveredState).1 =
      dedupe (sortBy t (cryptoPrices coveredState ++ before ++ after)) ∧
    strictlyAscending t
      (cryptoPrices (fetchCrypto endCandles BTC (mkRange 50 250) coveredState).1) ∧
    NoDup (t <$> cryptoPrices (fetchCrypto endCandles BTC (mkRange 50 250) coveredState).1).
Proof.
  apply (fetchCrypto_extends_both_sides endCandles BTC coveredState).
  - vm_compute. reflexivity.
  - vm_compute. discriminate.
Defined.

(** The merged series of the witness: the candles at 100 and 200 arrive
    twice and are stored once. *)
Example extends_both_sides_series :
  t <$> cryptoPrices (fetchCrypto endCandles BTC (mkRange 50 250) coveredState).1
  = [50; 100; 200; 250].
Proof. vm_compute. reflexivity. Qed.

Lemma fetchCrypto_failure_keeps_coverage_witness :
  cryptoPrices (fetchCrypto failingFrom200 BTC (mkRange 50 250) coveredState).1 =
    cryptoPrices coveredState ∧
  cryptoCacheRef (fetchCrypto failingFrom200 BTC (mkRange 50 250) coveredState).1 =
    cryptoCacheRef coveredState ∧
  (fetchCrypto failingFrom200 BTC (mkRange 50 250)
     (fetchCrypto failingFrom200 BTC (mkRange 50 250) coveredState).1).2 =
    (fetchCrypto failingFrom200 BTC (mkRange 50 250) coveredState).2.
Proof.
  apply (fetchCrypto_failure_keeps_coverage failingFrom200 BTC (mkRange 50 250) coveredState).
  vm_compute. right. left. reflexivity.
Defined.

(** In the witness the request for [50, 100] succeeds and the one for
    [200, 250] fails; nothing of the first result is stored. *)
Example failure_keeps_coverage_requests :
  fetchCryptoPriceHistory failingFrom200 <$>
    (fetchCrypto failingFrom200 BTC (mkRange 50 250) coveredState).2
  = [Some [mkPricePoint 50 1; mkPricePoint 100 2]; None] ∧
  cryptoPrices (fetchCrypto failingFrom200 BTC (mkRange 50 250) coveredState).1
  = [mkPricePoint 100 1; mkPricePoint 200 2] ∧
  error (fetchCrypto failingFrom200 BTC (mkRange 50 250) coveredState).1
  = Some "Failed to fetch BTC price data".
Proof. vm_compute. done. Qed.

(** C5, as stated, fails: a fetch that succeeds with no candle leaves an
    empty stored series, and the same request is then fetched again. *)
Lemma fetchCrypto_again_claim_fails :
  Forall (λ req, is_Some (fetchCryptoPriceHistory noCandles req))
    (fetchCrypto noCandles BTC (mkRange 100 200) initialState).2 ∧
  (fetchCrypto noCandles BTC (mkRange 100 200)
     (fetchCrypto noCandles BTC (mkRange 100 200) initialState).1).2
  = [mkCryptoRequest BTC 100 200] ∧
  (fetchCrypto noCandles BTC (mkRange 100 200)
     (fetchCrypto noCandles BTC (mkRange 100 200) initialState).1).2 ≠ [].
Proof.
  split; [|split; [vm_compute; reflexivity|vm_compute; discriminate]].
  vm_compute. repeat constructor. by eexists.
Qed.

Lemma fetchCrypto_again_is_hit_witness :
  ∃ cache : CryptoCache,
    cryptoCacheRef (fetchCrypto endCandles BTC (mkRange 100 200) initialState).1 = Some cache ∧
    cacheMin cache ≤ rangeMin (mkRange 100 200) ∧
    rangeMax (mkRange 100 200) ≤ cacheMax cache ∧
    ∀ again : Range,
      cacheMin cache ≤ rangeMin again → rangeMax again ≤ cacheMax cache →
      fetchCrypto endCandles BTC again
        (fetchCrypto endCandles BTC (mkRange 100 200) initialState).1 =
        ((fetchCrypto endCandles BTC (mkRange 100 200) initialState).1, []).
Proof.
  apply (fetchCrypto_again_is_hit endCandles BTC (mkRange 100 200) initialState).
  - vm_compute. repeat constructor. by eexists.
  - vm_compute. discriminate.
Defined.

(** * Further properties of the code *)

(** ** [findNearestPrice]: misses, exact hits, and the role of the tolerance *)

(** X1. On a sorted series [findNearestPrice] returns [null] exactly when
    every sample is farther from the target than the tolerance; the empty
    series and a negative tolerance are instances. *)
Theorem findNearestPrice_none_iff_all_far (h : list PricePoint) (target w : Z) :
  ascending t h →
  findNearestPrice h target w = None ↔
  ∀ x : PricePoint, x ∈ h → w < Z.abs (t x - target).
Proof.
  intros Hsorted. rewrite findNearestPrice_nearestPoint.
  assert (Hbound := λ other Hin, candidates_bound h target other Hsorted Hin).
  cbv zeta in Hbound. unfold nearestPoint.
  pose proof (searchInsertionPoint_local h target 0 (length h) (Nat.le_0_l _)) as (Hr & _ & _).
  set (left := searchInsertionPoint h target 0 (length h)) in *.
  assert (Hmem : ∀ i : nat, (i < length h)%nat → h !!! i ∈ h).
  { intros i Hi. by apply list_elem_of_lookup_total_2. }
  split.
  - intros Hnone x Hin. destruct (Hbound x Hin) as [[? ?]|[? ?]];
      repeat case_decide; simplify_eq/=; try lia; tauto.
  - intros Hfar.
    assert (Hat : (left < length h)%nat → w < Z.abs (t (h !!! left) - target)).
    { intros Hlt. apply Hfar, Hmem, Hlt. }
    assert (Hbefore : (0 < left)%nat → w < Z.abs (t (h !!! (left - 1)%nat) - target)).
    { intros Hlt. apply Hfar, Hmem. lia. }
    repeat case_decide; try done; exfalso; try lia; tauto.
Qed.

Lemma findNearestPrice_none_iff_all_far_witness :
  findNearestPrice seriesA 300 270 = None ↔
  ∀ x : PricePoint, x ∈ seriesA → 270 < Z.abs (t x - 300).
Proof.
  apply (findNearestPrice_none_iff_all_far seriesA 300 270).
  refine (bool_decide_unpack (ascending t _) _). vm_compute. exact I.
Defined.

Lemma findNearestPrice_at_sample (h : list PricePoint) (x : PricePoint) (w : Z) :
  ascending t h → x ∈ h → 0 ≤ w →
  ∃ (i : nat) (y : PricePoint),
    h !! i = Some y ∧ t y = t x ∧
    (∀ (j : nat) (z : PricePoint), (j < i)%nat → h !! j = Some z → t z < t x) ∧
    findNearestPrice h (t x) w = Some (p y).
Proof.
  intros Hsorted Hin Hw.
  destruct (searchInsertionPoint_sorted h (t x) Hsorted) as (Hlen & Hbelow & Hat).
  rewrite findNearestPrice_nearestPoint. unfold nearestPoint.
  set (left := searchInsertionPoint h (t x) 0 (length h)) in *.
  apply list_elem_of_lookup in Hin as [j Hj].
  pose proof (lookup_lt_Some _ _ _ Hj) as Hjlen.
  assert (Hle : (left ≤ j)%nat).
  { destruct (decide (left ≤ j)%nat) as [|Hgt]; [done|].
    pose proof (Hbelow j x ltac:(lia) Hj). lia. }
  assert (Hcur : h !! left = Some (h !!! left)).
  { apply list_lookup_lookup_total_lt. lia. }
  assert (Heq : t (h !!! left) = t x).
  { pose proof (Hat left _ ltac:(lia) Hcur).
    destruct (decide (left = j)) as [->|Hne].
    - rewrite Hcur in Hj. by inversion Hj.
    - pose proof (ascending_lookup t h left j _ _ Hsorted ltac:(lia) Hcur Hj). lia. }
  exists left, (h !!! left). split; [done|]. split; [done|]. split; [exact Hbelow|].
  assert (Hprev : (0 < left)%nat → t (h !!! (left - 1)%nat) < t x).
  { intros Hpos. apply (Hbelow (left - 1)%nat); [lia|].
    apply list_lookup_lookup_total_lt. lia. }
  rewrite Heq. repeat case_decide; try done; lia.
Qed.

(** X2. On a sorted series, a target equal to the timestamp of a sample is
    answered, for any tolerance that is not negative, with the price of the
    first sample that has this timestamp. *)
Theorem findNearestPrice_exact_hit (h : list PricePoint) (x : PricePoint) (w : Z) :
  ascending t h → x ∈ h → 0 ≤ w →
  ∃ (i : nat) (y : PricePoint),
    h !! i = Some y ∧ t y = t x ∧
    (∀ (j : nat) (z : PricePoint), (j < i)%nat → h !! j = Some z → t z < t x) ∧
    findNearestPrice h (t x) w = Some (p y).
Proof. apply findNearestPrice_at_sample. Qed.

Lemma findNearestPrice_exact_hit_witness :
  ∃ (i : nat) (y : PricePoint),
    seriesA !! i = Some y ∧ t y = t (mkPricePoint 20 0.4) ∧
    (∀ (j : nat) (z : PricePoint), (j < i)%nat → seriesA !! j = Some z →
       t z < t (mkPricePoint 20 0.4)) ∧
    findNearestPrice seriesA (t (mkPricePoint 20 0.4)) 0 = Some (p y).
Proof.
  apply (findNearestPrice_exact_hit seriesA (mkPricePoint 20 0.4) 0).
  - refine (bool_decide_unpack (ascending t _) _). vm_compute. exact I.
  - right. left.
  - lia.
Defined.

(** X3. The tolerance only gates the answer: a price returned for one
    tolerance is returned for every larger one, on any array. *)
Theorem findNearestPrice_tolerance_monotone (h : list PricePoint) (target w w' : Z)
    (price : float) :
  w ≤ w' →
  findNearestPrice h target w = Some price →
  findNearestPrice h target w' = Some price.
Proof.
  intros Hle. rewrite !findNearestPrice_nearestPoint. unfold nearestPoint.
  set (left := searchInsertionPoint h target 0 (length h)).
  repeat case_decide; try done; try lia; intros [=]; exfalso; try lia; tauto.
Qed.

Lemma findNearestPrice_tolerance_monotone_witness :
  findNearestPrice seriesA 14 270 = Some 0.3%float.
Proof.
  apply (findNearestPrice_tolerance_monotone seriesA 14 4 270 0.3%float).
  - lia.
  - vm_compute. reflexivity.
Defined.

(** ** [chartData]: the rows *)

Lemma collectTimestamps_elem (keys : list Z) (points : list PricePoint) (z : Z) :
  z ∈ collectTimestamps keys points ↔ z ∈ keys ∨ z ∈ t <$> points.
Proof.
  unfold collectTimestamps. revert keys.
  induction points as [|x points IH]; intros keys; simpl.
  - rewrite elem_of_nil. tauto.
  - rewrite IH, elem_of_cons. case_decide as Hin.
    + split; [tauto|]. intros [?|[->|?]]; tauto.
    + rewrite elem_of_app, list_elem_of_singleton. tauto.
Qed.

Lemma collectTimestamps_NoDup (keys : list Z) (points : list PricePoint) :
  NoDup keys → NoDup (collectTimestamps keys points).
Proof.
  unfold collectTimestamps. revert keys.
  induction points as [|x points IH]; intros keys Hnd; simpl; [done|].
  apply IH. case_decide as Hin; [done|].
  apply NoDup_app. split; [done|]. split; [|apply NoDup_singleton].
  intros z Hz Hz'. apply list_elem_of_singleton in Hz' as ->. done.
Qed.

Lemma collectSelected_elem (st : State) (init : list Z) (betKeys : list string) (z : Z) :
  z ∈ collectSelected st init betKeys ↔
  z ∈ init ∨ ∃ (k : string) (h : list PricePoint) (x : PricePoint),
               k ∈ betKeys ∧ priceHistories st !! k = Some h ∧ x ∈ h ∧ t x = z.
Proof.
  unfold collectSelected. revert init.
  induction betKeys as [|k betKeys IH]; intros init; simpl.
  - split; [tauto|]. intros [?|(k & h & x & Hk & _)]; [done|]. by apply elem_of_nil in Hk.
  - rewrite IH. split.
    + intros [Hin|(k' & h & x & Hk' & Hh & Hx & Hz)].
      * destruct (priceHistories st !! k) as [h|] eqn:Hh; [|by left].
        apply collectTimestamps_elem in Hin as [Hin|Hin]; [by left|].
        apply list_elem_of_fmap in Hin as (x & -> & Hx).
        right. exists k, h, x. split; [by left|done].
      * right. exists k', h, x. split; [by right|done].
    + intros [Hin|(k' & h & x & Hk' & Hh & Hx & Hz)].
      * left. destruct (priceHistories st !! k); [|done].
        apply collectTimestamps_elem. by left.
      * apply elem_of_cons in Hk' as [->|Hk'].
        -- left. rewrite Hh. apply collectTimestamps_elem. right.
           apply list_elem_of_fmap. by exists x.
        -- right. by exists k', h, x.
Qed.

Lemma collectSelected_NoDup (st : State) (init : list Z) (betKeys : list string) :
  NoDup init → NoDup (collectSelected st init betKeys).
Proof.
  unfold collectSelected. revert init.
  induction betKeys as [|k betKeys IH]; intros init Hnd; simpl; [done|].
  apply IH. destruct (priceHistories st !! k); [|done]. by apply collectTimestamps_NoDup.
Qed.

(** The keys of [dataMap] once both collecting loops are done. *)
Lemma chartData_timestamps (crypto : CryptoOption) (st : State) :
  timestamp <$> chartData crypto st =
  sortBy (λ z : Z, z)
    (if cryptoActive crypto st
     then collectTimestamps (collectSelected st [] (mapKeys (selectedBets st))) (cryptoPrices st)
     else collectSelected st [] (mapKeys (selectedBets st))).
Proof.
  unfold chartData. rewrite <- list_fmap_compose.
  erewrite list_fmap_ext; [apply list_fmap_id|].
  intros i z _. apply fillDataPoint_timestamp.
Qed.

Lemma ascending_NoDup_strictly {A : Type} (key : A → Z) (l : list A) :
  ascending key l → NoDup (key <$> l) → strictlyAscending key l.
Proof.
  unfold ascending, strictlyAscending.
  induction 1 as [|x l Hs IH Hall]; intros Hnd; [constructor|].
  rewrite fmap_cons in Hnd. apply NoDup_cons in Hnd as [Hx Hnd].
  constructor; [by apply IH|].
  rewrite Forall_forall in Hall |- *. intros y Hy.
  pose proof (Hall y Hy). destruct (decide (key x = key y)) as [Heq|Hne]; [|lia].
  exfalso. apply Hx. rewrite Heq. by apply list_elem_of_fmap_2.
Qed.

Lemma strictlyAscending_of_keys {A : Type} (key : A → Z) (l : list A) :
  strictlyAscending (λ z : Z, z) (key <$> l) → strictlyAscending key l.
Proof.
  unfold strictlyAscending. induction l as [|x l IH]; intros Hs; [constructor|].
  rewrite fmap_cons in Hs. apply StronglySorted_inv in Hs as [Hs Hall].
  constructor; [by apply IH|]. by rewrite Forall_fmap in Hall.
Qed.

(** X4. The rows of [chartData] are strictly ascending by timestamp: sorted,
    and one row per timestamp. *)
Theorem chartData_rows_strictly_ascending (crypto : CryptoOption) (st : State) :
  strictlyAscending timestamp (chartData crypto st).
Proof.
  assert (Hts : strictlyAscending (λ z : Z, z) (timestamp <$> chartData crypto st)).
  { rewrite chartData_timestamps. apply ascending_NoDup_strictly; [apply sortBy_ascending|].
    rewrite list_fmap_id, sortBy_Permutation.
    destruct (cryptoActive crypto st).
    - apply collectTimestamps_NoDup, collectSelected_NoDup, NoDup_nil_2.
    - apply collectSelected_NoDup, NoDup_nil_2. }
  by apply strictlyAscending_of_keys.
Qed.

Lemma chartData_timestamp_elem (crypto : CryptoOption) (st : State) (z : Z) :
  z ∈ timestamp <$> chartData crypto st ↔
  (∃ x : PricePoint, selectedSample st x ∧ t x = z) ∨
  (crypto ≠ NONE ∧ ∃ x : PricePoint, x ∈ cryptoPrices st ∧ t x = z).
Proof.
  rewrite chartData_timestamps, sortBy_Permutation.
  assert (Hsel : z ∈ collectSelected st [] (mapKeys (selectedBets st)) ↔
                 ∃ x : PricePoint, selectedSample st x ∧ t x = z).
  { rewrite collectSelected_elem, elem_of_nil. unfold selectedSample. split.
    - intros [[]|(k & h & x & ? & ? & ? & ?)]. exists x. split; [by exists k, h|done].
    - intros (x & (k & h & ? & ? & ?) & ?). right. by exists k, h, x. }
  unfold cryptoActive. destruct (bool_decide (crypto ≠ NONE)) eqn:Hkind; simpl.
  - apply bool_decide_eq_true_1 in Hkind.
    case_bool_decide as Hlen; simpl.
    + rewrite collectTimestamps_elem, Hsel, list_elem_of_fmap. split.
      * intros [?|(x & -> & ?)]; [by left|]. right. split; [done|]. by exists x.
      * intros [?|[_ (x & ? & <-)]]; [by left|]. right. by exists x.
    + rewrite Hsel. split; [tauto|]. intros [?|[_ (x & Hx & _)]]; [done|].
      destruct (cryptoPrices st); [by apply elem_of_nil in Hx|simpl in Hlen; lia].
  - apply bool_decide_eq_false_1 in Hkind. rewrite Hsel. split; [tauto|].
    intros [?|[? _]]; [done|]. destruct (decide (crypto = NONE)); tauto.
Qed.

(** X5. There is a row for a timestamp exactly when it is the timestamp of a
    sample of the stored history of a selected key, or of a stored crypto
    sample while a crypto kind is chosen. *)
Theorem chartData_row_timestamps (crypto : CryptoOption) (st : State) (z : Z) :
  z ∈ timestamp <$> chartData crypto st ↔
  (∃ x : PricePoint, selectedSample st x ∧ t x = z) ∨
  (crypto ≠ NONE ∧ ∃ x : PricePoint, x ∈ cryptoPrices st ∧ t x = z).
Proof. apply chartData_timestamp_elem. Qed.

Lemma generateBetKey_not_cryptoName (marketId : string) (ty : BetType)
    (crypto : CryptoOption) :
  generateBetKey marketId ty ≠ cryptoName crypto.
Proof.
  unfold generateBetKey. intros Heq.
  pose proof (f_equal String.length Heq) as Hlen.
  rewrite !string_length_app in Hlen.
  destruct marketId as [|c [|c' marketId]], ty, crypto; simpl in Hlen; try lia;
    discriminate Heq.
Qed.

(** What the loop over [betKeys] leaves under a property name. *)
Lemma foldl_fillBet_field (st : State) (ts : Z) (keys : list string)
    (acc : gmap string float * float * nat) (k : string) :
  (foldl (fillBet st ts) acc keys).1.1 !! k =
  if decide (k ∈ keys)
  then match nearestAt st ts k with Some price => Some price | None => acc.1.1 !! k end
  else acc.1.1 !! k.
Proof.
  revert acc. induction keys as [|k' keys IH]; intros acc.
  - rewrite decide_False; [done|]. apply not_elem_of_nil.
  - cbn [foldl]. rewrite IH, fillBet_nearestAt.
    destruct (decide (k = k')) as [->|Hne].
    + rewrite (decide_True (P := k' ∈ k' :: keys)) by (by left).
      destruct (nearestAt st ts k') as [price|] eqn:Hnear; simpl.
      * rewrite lookup_insert_eq. by case_decide.
      * by case_decide.
    + assert (Hother : (match nearestAt st ts k' with
                        | Some price => (<[k':=price]> acc.1.1, (acc.1.2 + price)%float, S acc.2)
                        | None => acc
                        end).1.1 !! k = acc.1.1 !! k).
      { destruct (nearestAt st ts k'); [|done]. simpl. by rewrite lookup_insert_ne. }
      rewrite Hother.
      destruct (decide (k ∈ keys)) as [Hin|Hnot].
      * by rewrite decide_True by (by right).
      * rewrite decide_False; [done|]. intros Hin. apply elem_of_cons in Hin as [?|?]; done.
Qed.

(** The property of a row under a bet key. *)
Lemma fillDataPoint_series_field (crypto : CryptoOption) (st : State) (ts : Z)
    (keys : list string) (k : string) :
  isBetKey k →
  fields (fillDataPoint crypto st keys ts) !! k =
  if decide (k ∈ keys) then nearestAt st ts k else None.
Proof.
  intros (marketId & ty & ->). unfold fillDataPoint.
  pose proof (foldl_fillBet_field st ts keys (∅, 0%float, 0%nat) (generateBetKey marketId ty))
    as Hfield.
  destruct (foldl (fillBet st ts) (∅, 0%float, 0%nat) keys) as [[dataPoint sum] valid].
  simpl in Hfield. rewrite lookup_empty in Hfield. cbn [fields].
  assert (Hcrypto : ∀ m : gmap string float,
    (if bool_decide (crypto ≠ NONE) && bool_decide (0 < length (cryptoPrices st))%nat
     then match findNearestPrice (cryptoPrices st) ts cryptoMaxDeltaSeconds with
          | Some cryptoPrice => <[cryptoName crypto := cryptoPrice]> m
          | None => m
          end
     else m) !! generateBetKey marketId ty = m !! generateBetKey marketId ty).
  { intros m. destruct (_ && _); [|done].
    destruct (findNearestPrice _ _ _); [|done].
    apply lookup_insert_ne. intros Heq. by eapply generateBetKey_not_cryptoName. }
  rewrite Hcrypto. clear Hcrypto.
  assert (Hsum : ∀ (b : bool) (sumValue : float),
    (if b then <["sum" := sumValue]> dataPoint else dataPoint) !! generateBetKey marketId ty
    = dataPoint !! generateBetKey marketId ty).
  { intros [|] sumValue; [|done]. apply lookup_insert_ne. intros Heq.
    by eapply generateBetKey_not_sum. }
  rewrite Hsum, Hfield. case_decide; [|done]. by destruct (nearestAt st ts _).
Qed.

(** X6. In every row, the property under a bet key is the nearest price of
    that key's stored history at the row's timestamp when the key is
    selected, and is absent when it is not. *)
Theorem chartData_series_field (crypto : CryptoOption) (st : State)
    (row : ChartDataPoint) (k : string) :
  isBetKey k →
  row ∈ chartData crypto st →
  fields row !! k =
  if decide (k ∈ mapKeys (selectedBets st)) then nearestAt st (timestamp row) k else None.
Proof.
  intros Hk Hrow. unfold chartData in Hrow.
  apply list_elem_of_fmap in Hrow as (ts & -> & _).
  rewrite fillDataPoint_timestamp. by apply fillDataPoint_series_field.
Qed.

Lemma chartData_series_field_witness :
  let row := fillDataPoint NONE twoSeriesState (mapKeys (selectedBets twoSeriesState)) 20 in
  fields row !! generateBetKey "B" YES =
  if decide (generateBetKey "B" YES ∈ mapKeys (selectedBets twoSeriesState))
  then nearestAt twoSeriesState (timestamp row) (generateBetKey "B" YES) else None.
Proof.
  apply (chartData_series_field NONE twoSeriesState).
  - by exists "B", YES.
  - unfold chartData. apply list_elem_of_fmap. exists 20. split; [reflexivity|].
    vm_compute. right. left.
Defined.

(** X7. In every row, the property under the crypto name is the nearest
    stored crypto price within 120 seconds of the row's timestamp while a
    crypto kind is chosen and a crypto series is stored, and is absent
    otherwise. *)
Theorem chartData_crypto_field (crypto : CryptoOption) (st : State) (row : ChartDataPoint) :
  Forall isBetKey (mapKeys (selectedBets st)) →
  row ∈ chartData crypto st →
  fields row !! cryptoName crypto =
  if cryptoActive crypto st
  then findNearestPrice (cryptoPrices st) (timestamp row) 120
  else None.
Proof.
  intros Hkeys Hrow. unfold chartData in Hrow.
  apply list_elem_of_fmap in Hrow as (ts & -> & _).
  rewrite fillDataPoint_timestamp. unfold fillDataPoint, cryptoActive.
  set (keys := mapKeys (selectedBets st)) in *.
  assert (Hnot : cryptoName crypto ∉ keys).
  { intros Hin. rewrite Forall_forall in Hkeys.
    destruct (Hkeys _ Hin) as (marketId & ty & Heq).
    symmetry in Heq. by eapply generateBetKey_not_cryptoName. }
  pose proof (foldl_fillBet_other st ts keys (∅, 0%float, 0%nat) _ Hnot) as Hother.
  destruct (foldl (fillBet st ts) (∅, 0%float, 0%nat) keys) as [[dataPoint sum] valid].
  simpl in Hother. rewrite lookup_empty in Hother. cbn [fields].
  assert (Hsum : ∀ (b : bool) (sumValue : float),
    (if b then <["sum" := sumValue]> dataPoint else dataPoint) !! cryptoName crypto = None).
  { intros [|] sumValue; [|done]. rewrite lookup_insert_ne; [done|].
    intros Heq. symmetry in Heq. by eapply cryptoName_not_sum. }
  destruct (bool_decide (crypto ≠ NONE) && bool_decide (0 < length (cryptoPrices st))%nat);
    [|apply Hsum].
  unfold cryptoMaxDeltaSeconds.
  destruct (findNearestPrice (cryptoPrices st) ts 120); [apply lookup_insert_eq|apply Hsum].
Qed.

Lemma chartData_crypto_field_witness :
  let st := setCryptoPrices [mkPricePoint 100 1; mkPricePoint 200 2] twoSeriesState in
  let row := fillDataPoint BTC st (mapKeys (selectedBets st)) 100 in
  fields row !! cryptoName BTC =
  if cryptoActive BTC st then findNearestPrice (cryptoPrices st) (timestamp row) 120 else None.
Proof.
  apply (chartData_crypto_field BTC
           (setCryptoPrices [mkPricePoint 100 1; mkPricePoint 200 2] twoSeriesState)).
  - repeat constructor; eexists _, _; reflexivity.
  - unfold chartData. apply list_elem_of_fmap. exists 100. split; [reflexivity|].
    vm_compute. right. right. left.
Defined.

(** X8. A selected key whose stored history is sorted has, for each of its
    samples, a row at the sample's timestamp that carries the price of a
    sample of that history with exactly this timestamp. *)
Theorem chartData_shows_own_samples (crypto : CryptoOption) (st : State) (k : string)
    (h : list PricePoint) (x : PricePoint) :
  isBetKey k → k ∈ mapKeys (selectedBets st) →
  priceHistories st !! k = Some h → ascending t h → x ∈ h →
  ∃ (row : ChartDataPoint) (y : PricePoint),
    row ∈ chartData crypto st ∧ timestamp row = t x ∧
    y ∈ h ∧ t y = t x ∧ fields row !! k = Some (p y).
Proof.
  intros Hk Hsel Hh Hsorted Hx.
  assert (Hts : t x ∈ timestamp <$> chartData crypto st).
  { apply chartData_timestamp_elem. left. exists x. split; [|done]. by exists k, h. }
  apply list_elem_of_fmap in Hts as (row & Hrow & Hin).
  destruct (findNearestPrice_at_sample h x defaultMaxDeltaSeconds Hsorted Hx)
    as (i & y & Hi & Hy & _ & Hnear); [unfold defaultMaxDeltaSeconds; lia|].
  exists row, y. split; [done|]. split; [done|].
  split; [by eapply list_elem_of_lookup_2|]. split; [done|].
  unfold chartData in Hin. apply list_elem_of_fmap in Hin as (ts & -> & _).
  rewrite fillDataPoint_timestamp in Hrow. subst ts.
  rewrite fillDataPoint_series_field by done.
  rewrite decide_True by done. unfold nearestAt. by rewrite Hh.
Qed.

Lemma chartData_shows_own_samples_witness :
  ∃ (row : ChartDataPoint) (y : PricePoint),
    row ∈ chartData NONE twoSeriesState ∧ timestamp row = t (mkPricePoint 20 0.4) ∧
    y ∈ seriesA ∧ t y = t (mkPricePoint 20 0.4) ∧
    fields row !! generateBetKey "A" YES = Some (p y).
Proof.
  apply (chartData_shows_own_samples NONE twoSeriesState (generateBetKey "A" YES) seriesA
           (mkPricePoint 20 0.4)).
  - by exists "A", YES.
  - left.
  - vm_compute. reflexivity.
  - refine (bool_decide_unpack (ascending t _) _). vm_compute. exact I.
  - right. left.
Defined.

(** ** [timeRange] *)

Lemma timeRangeStep_firstLast (st : State) (acc : Num * Num) (k : string) :
  timeRangeStep st acc k =
  match firstLast st k with
  | Some fl => (numMin acc.1 fl.1, numMax acc.2 fl.2)
  | None => acc
  end.
Proof.
  unfold timeRangeStep, firstLast. destruct (priceHistories st !! k); [|done].
  by case_decide.
Qed.

Lemma timeRange_fold_firstLast (st : State) (keys : list string) (acc : Num * Num) :
  foldl (timeRangeStep st) acc keys =
  foldl (λ acc fl, (numMin acc.1 fl.1, numMax acc.2 fl.2)) acc (omap (firstLast st) keys).
Proof.
  revert acc. induction keys as [|k keys IH]; intros acc; [done|].
  cbn [foldl]. rewrite IH, timeRangeStep_firstLast.
  change (omap (firstLast st) (k :: keys))
    with (match firstLast st k with
          | Some fl => fl :: omap (firstLast st) keys
          | None => omap (firstLast st) keys
          end).
  by destruct (firstLast st k).
Qed.

(** Folding from finite bounds: the result is finite, bounds the start and
    every pair, and each bound is the start or comes from a pair. *)
Lemma range_fold_finite (pairs : list (Z * Z)) (a0 b0 : Z) :
  ∃ a b : Z,
    foldl (λ acc fl, (numMin acc.1 fl.1, numMax acc.2 fl.2)) (Finite a0, Finite b0) pairs
      = (Finite a, Finite b) ∧
    a ≤ a0 ∧ b0 ≤ b ∧
    (∀ fl, fl ∈ pairs → a ≤ fl.1 ∧ fl.2 ≤ b) ∧
    (a = a0 ∨ ∃ fl, fl ∈ pairs ∧ a = fl.1) ∧
    (b = b0 ∨ ∃ fl, fl ∈ pairs ∧ b = fl.2).
Proof.
  revert a0 b0. induction pairs as [|[f l] pairs IH]; intros a0 b0.
  - exists a0, b0. split; [done|]. split; [lia|]. split; [lia|].
    split; [|by split; left]. intros fl Hin. by apply elem_of_nil in Hin.
  - cbn [foldl numMin numMax fst snd].
    destruct (IH (Z.min a0 f) (Z.max b0 l)) as (a & b & Hres & Ha & Hb & Hall & Hmin & Hmax).
    exists a, b. split; [done|]. split; [lia|]. split; [lia|]. split; [|split].
    + intros fl Hin. apply elem_of_cons in Hin as [->|Hin]; [simpl; lia|by apply Hall].
    + destruct Hmin as [->|(fl & Hin & ->)].
      * destruct (Z.min_spec a0 f) as [[_ ->]|[_ ->]]; [by left|].
        right. exists (f, l). split; [by left|done].
      * right. exists fl. split; [by right|done].
    + destruct Hmax as [->|(fl & Hin & ->)].
      * destruct (Z.max_spec b0 l) as [[_ ->]|[_ ->]]; [|by left].
        right. exists (f, l). split; [by left|done].
      * right. exists fl. split; [by right|done].
Qed.

(** The value of [timeRange] in terms of the first and last timestamps. *)
Lemma timeRange_cases (st : State) :
  (timeRange st = None ∧ omap (firstLast st) (mapKeys (selectedBets st)) = []) ∨
  (∃ a b : Z, timeRange st = Some (mkRange a b) ∧
     (∀ fl, fl ∈ omap (firstLast st) (mapKeys (selectedBets st)) → a ≤ fl.1 ∧ fl.2 ≤ b) ∧
     (∃ fl, fl ∈ omap (firstLast st) (mapKeys (selectedBets st)) ∧ a = fl.1) ∧
     (∃ fl, fl ∈ omap (firstLast st) (mapKeys (selectedBets st)) ∧ b = fl.2)).
Proof.
  unfold timeRange. rewrite timeRange_fold_firstLast.
  destruct (omap (firstLast st) (mapKeys (selectedBets st))) as [|[f l] pairs]; [by left|].
  right. cbn [foldl numMin numMax fst snd].
  destruct (range_fold_finite pairs f l) as (a & b & Hres & Ha & Hb & Hall & Hmin & Hmax).
  exists a, b. rewrite Hres. split; [done|]. split; [|split].
  - intros fl Hin. apply elem_of_cons in Hin as [->|Hin]; [simpl; lia|by apply Hall].
  - destruct Hmin as [->|(fl & Hin & ->)].
    + exists (f, l). split; [by left|done].
    + exists fl. split; [by right|done].
  - destruct Hmax as [->|(fl & Hin & ->)].
    + exists (f, l). split; [by left|done].
    + exists fl. split; [by right|done].
Qed.

Lemma firstLast_elem (st : State) (fl : Z * Z) :
  fl ∈ omap (firstLast st) (mapKeys (selectedBets st)) ↔
  ∃ (k : string) (h : list PricePoint),
    k ∈ mapKeys (selectedBets st) ∧ priceHistories st !! k = Some h ∧ h ≠ [] ∧
    fl = (t (h !!! 0%nat), t (h !!! (length h - 1)%nat)).
Proof.
  rewrite list_elem_of_omap. unfold firstLast. split.
  - intros (k & Hk & Hfl). destruct (priceHistories st !! k) as [h|] eqn:Hh; [|done].
    case_decide as Hlen; [|done]. injection Hfl as <-.
    exists k, h. split; [done|]. split; [done|]. split; [|done].
    intros ->. simpl in Hlen. lia.
  - intros (k & h & Hk & Hh & Hne & ->). exists k. split; [done|]. rewrite Hh.
    rewrite decide_True; [done|]. destruct h; [done|simpl; lia].
Qed.

(** When [timeRange] is [null]: shared by the properties below. *)
Lemma timeRange_null (st : State) :
  timeRange st = None ↔
  ∀ (k : string) (h : list PricePoint),
    k ∈ mapKeys (selectedBets st) → priceHistories st !! k = Some h → h = [].
Proof.
  destruct (timeRange_cases st) as [[Hnone Hempty]|(a & b & Hsome & _ & (fl & Hfl & _) & _)].
  - split; [|done]. intros _ k h Hk Hh. destruct h as [|x h]; [done|].
    assert (Hin : (t ((x :: h) !!! 0%nat), t ((x :: h) !!! (length (x :: h) - 1)%nat))
                  ∈ omap (firstLast st) (mapKeys (selectedBets st))).
    { apply firstLast_elem. by exists k, (x :: h). }
    rewrite Hempty in Hin. by apply elem_of_nil in Hin.
  - rewrite Hsome. split; [done|]. intros Hall.
    apply firstLast_elem in Hfl as (k & h & Hk & Hh & Hne & _).
    by specialize (Hall k h Hk Hh).
Qed.

(** X9. [timeRange] is [null] exactly when no selected key has a stored
    history with a sample in it. *)
Theorem timeRange_none_iff (st : State) :
  timeRange st = None ↔
  ∀ (k : string) (h : list PricePoint),
    k ∈ mapKeys (selectedBets st) → priceHistories st !! k = Some h → h = [].
Proof. apply timeRange_null. Qed.

(** X10. When the stored histories of the selected keys are sorted, the
    range [timeRange] returns contains the timestamp of every sample of
    every selected key, and each of its two bounds is the timestamp of such a
    sample. *)
Theorem timeRange_covers_selected (st : State) (range : Range) :
  (∀ (k : string) (h : list PricePoint),
     k ∈ mapKeys (selectedBets st) → priceHistories st !! k = Some h → ascending t h) →
  timeRange st = Some range →
  (∀ x : PricePoint, selectedSample st x → rangeMin range ≤ t x ≤ rangeMax range) ∧
  (∃ x : PricePoint, selectedSample st x ∧ t x = rangeMin range) ∧
  (∃ x : PricePoint, selectedSample st x ∧ t x = rangeMax range).
Proof.
  intros Hsorted Hrange.
  destruct (timeRange_cases st) as [[Hnone _]|(a & b & Hsome & Hall & Hmin & Hmax)];
    [congruence|].
  rewrite Hsome in Hrange. injection Hrange as <-. cbn [rangeMin rangeMax].
  assert (Hends : ∀ (h : list PricePoint), h ≠ [] →
            h !!! 0%nat ∈ h ∧ h !!! (length h - 1)%nat ∈ h).
  { intros h Hne. assert (0 < length h)%nat by (destruct h; [done|simpl; lia]).
    split; apply list_elem_of_lookup_total_2; lia. }
  split; [|split].
  - intros x (k & h & Hk & Hh & Hx).
    assert (Hne : h ≠ []) by (intros ->; by apply elem_of_nil in Hx).
    destruct (Hall (t (h !!! 0%nat), t (h !!! (length h - 1)%nat))) as [Hlo Hhi].
    { apply firstLast_elem. by exists k, h. }
    simpl in Hlo, Hhi. specialize (Hsorted k h Hk Hh).
    apply list_elem_of_lookup in Hx as [i Hi].
    pose proof (lookup_lt_Some _ _ _ Hi) as Hlen.
    assert (Hfirst : h !! 0%nat = Some (h !!! 0%nat))
      by (apply list_lookup_lookup_total_lt; lia).
    assert (Hlast : h !! (length h - 1)%nat = Some (h !!! (length h - 1)%nat))
      by (apply list_lookup_lookup_total_lt; lia).
    assert (t (h !!! 0%nat) ≤ t x).
    { destruct (decide (i = 0%nat)) as [->|Hne0].
      - rewrite Hfirst in Hi. injection Hi as <-. lia.
      - apply (ascending_lookup t h 0 i); [done|lia|done..]. }
    assert (t x ≤ t (h !!! (length h - 1)%nat)).
    { destruct (decide (i = length h - 1)%nat) as [->|Hnel].
      - rewrite Hlast in Hi. injection Hi as <-. lia.
      - apply (ascending_lookup t h i (length h - 1)); [done|lia|done..]. }
    lia.
  - destruct Hmin as (fl & Hfl & ->).
    apply firstLast_elem in Hfl as (k & h & Hk & Hh & Hne & ->).
    exists (h !!! 0%nat). split; [|done]. exists k, h. split; [done|]. split; [done|].
    by apply Hends.
  - destruct Hmax as (fl & Hfl & ->).
    apply firstLast_elem in Hfl as (k & h & Hk & Hh & Hne & ->).
    exists (h !!! (length h - 1)%nat). split; [|done]. exists k, h.
    split; [done|]. split; [done|]. by apply Hends.
Qed.

Lemma timeRange_covers_selected_witness :
  (∀ x : PricePoint, selectedSample twoSeriesState x →
     rangeMin (mkRange 10 20) ≤ t x ≤ rangeMax (mkRange 10 20)) ∧
  (∃ x : PricePoint, selectedSample twoSeriesState x ∧ t x = rangeMin (mkRange 10 20)) ∧
  (∃ x : PricePoint, selectedSample twoSeriesState x ∧ t x = rangeMax (mkRange 10 20)).
Proof.
  apply (timeRange_covers_selected twoSeriesState (mkRange 10 20)).
  - intros k h Hk Hh.
    apply elem_of_cons in Hk as [->|Hk]; [|apply list_elem_of_singleton in Hk as ->];
      vm_compute in Hh; injection Hh as <-;
      refine (bool_decide_unpack (ascending t _) _); vm_compute; exact I.
  - vm_compute. reflexivity.
Defined.

(** ** [handleBetToggle]: selecting, deselecting, and what every session keeps *)

Lemma string_app_inj_r (s1 s2 x : string) : s1 +:+ x = s2 +:+ x → s1 = s2.
Proof.
  revert s2. induction s1 as [|c s1 IH]; intros [|c' s2] Heq.
  - done.
  - apply (f_equal String.length) in Heq.
    rewrite !string_length_app in Heq. simpl in Heq. lia.
  - apply (f_equal String.length) in Heq.
    rewrite !string_length_app in Heq. simpl in Heq. lia.
  - change (String c (s1 +:+ x) = String c' (s2 +:+ x)) in Heq.
    injection Heq as -> Heq. f_equal. by apply IH.
Qed.

Lemma generateBetKey_sides_differ (m1 m2 : string) :
  m1 +:+ "-YES" ≠ m2 +:+ "-NO".
Proof.
  revert m2. induction m1 as [|a m1 IH]; intros m2 Heq.
  - pose proof (f_equal String.length Heq) as Hlen.
    rewrite !string_length_app in Hlen. simpl in Hlen.
    destruct m2 as [|b [|b' m2]]; simpl in Hlen; try lia. discriminate Heq.
  - destruct m2 as [|b m2].
    + apply (f_equal String.length) in Heq.
      rewrite !string_length_app in Heq. simpl in Heq. lia.
    + change (String a (m1 +:+ "-YES") = String b (m2 +:+ "-NO")) in Heq.
      injection Heq as _ Heq. by apply (IH m2).
Qed.

(** X11. Two bets have the same key only if they are the same side of the
    same market. *)
Theorem generateBetKey_injective (m1 m2 : string) (ty1 ty2 : BetType) :
  generateBetKey m1 ty1 = generateBetKey m2 ty2 → m1 = m2 ∧ ty1 = ty2.
Proof.
  unfold generateBetKey. destruct ty1, ty2; simpl; intros Heq.
  - split; [|done]. by apply (string_app_inj_r m1 m2 "-YES").
  - by apply generateBetKey_sides_differ in Heq.
  - symmetry in Heq. by apply generateBetKey_sides_differ in Heq.
  - split; [|done]. by apply (string_app_inj_r m1 m2 "-NO").
Qed.

Lemma generateBetKey_injective_witness : "C" = "C" ∧ YES = YES.
Proof. apply (generateBetKey_injective "C" "C" YES YES). reflexivity. Defined.

Section ToggleSession.
Variable fetchPriceHistory : PriceHistoryRequest → option PriceHistory.

(** X12. When the fetch issued for a newly selected key succeeds, the key is
    selected, placed after the others; its stored history is the response
    sorted by [t] (the same samples, ascending); the other histories are
    untouched and the error is cleared. *)
Theorem handleBetToggle_success_stores_sorted (market : ParsedMarket) (ty : BetType)
    (st : State) (req : PriceHistoryRequest) (response : PriceHistory) :
  (handleBetToggle fetchPriceHistory market ty st).2 = [req] →
  fetchPriceHistory req = Some response →
  ∃ stored : list PricePoint,
    priceHistories (handleBetToggle fetchPriceHistory market ty st).1
      !! generateBetKey (id market) ty = Some stored ∧
    ascending t stored ∧ stored ≡ₚ history response ∧
    (∀ k : string, k ≠ generateBetKey (id market) ty →
       priceHistories (handleBetToggle fetchPriceHistory market ty st).1 !! k
       = priceHistories st !! k) ∧
    mapKeys (selectedBets (handleBetToggle fetchPriceHistory market ty st).1)
      = mapKeys (selectedBets st) ++ [generateBetKey (id market) ty] ∧
    error (handleBetToggle fetchPriceHistory market ty st).1 = None.
Proof.
  intros Hreq Hfetch.
  destruct (handleBetToggle_requests fetchPriceHistory market ty st req Hreq)
    as (Hnot & Hnone & ->).
  unfold handleBetToggle.
  rewrite (proj2 (mapHas_false _ _) Hnot), Hnone, Hfetch. simpl.
  exists (sortBy t (history response)).
  split; [apply lookup_insert_eq|]. split; [apply sortBy_ascending|].
  split; [apply sortBy_Permutation|]. split.
  { intros k Hne. by apply lookup_insert_ne. }
  split; [|done].
  unfold toggleSelection, mapSet. rewrite (proj2 (mapHas_false _ _) Hnot).
  unfold mapKeys. by rewrite fmap_app.
Qed.

(** X13. A click on a selected key removes that key and nothing else from
    the selection, issues no request for a price history, keeps the stored
    histories and does not clear the error.  The click itself does not write
    the crypto series; the effect that depends on [timeRange] does.  The
    range of the new selection is [null] exactly when no other selected key
    has a stored history with a sample in it, and then the effect, run on
    that range, sends nothing to the exchange, empties the crypto series and
    drops the cache. *)
Theorem handleBetToggle_deselect (allKlines : CryptoRequest → option (list PricePoint))
    (crypto : CryptoOption) (market : ParsedMarket) (ty : BetType) (st : State) :
  generateBetKey (id market) ty ∈ mapKeys (selectedBets st) →
  (handleBetToggle fetchPriceHistory market ty st).2 = [] ∧
  selectedBets (handleBetToggle fetchPriceHistory market ty st).1
    = filter (λ kv, kv.1 ≠ generateBetKey (id market) ty) (selectedBets st) ∧
  (generateBetKey (id market) ty
     ∉ mapKeys (selectedBets (handleBetToggle fetchPriceHistory market ty st).1)) ∧
  priceHistories (handleBetToggle fetchPriceHistory market ty st).1 = priceHistories st ∧
  error (handleBetToggle fetchPriceHistory market ty st).1 = error st ∧
  (timeRange (handleBetToggle fetchPriceHistory market ty st).1 = None ↔
   ∀ (k : string) (h : list PricePoint),
     k ∈ mapKeys (selectedBets st) → k ≠ generateBetKey (id market) ty →
     priceHistories st !! k = Some h → h = []) ∧
  (timeRange (handleBetToggle fetchPriceHistory market ty st).1 = None →
   (cryptoEffect allKlines crypto
      (timeRange (handleBetToggle fetchPriceHistory market ty st).1)
      (handleBetToggle fetchPriceHistory market ty st).1).2 = [] ∧
   cryptoPrices
     (cryptoEffect allKlines crypto
        (timeRange (handleBetToggle fetchPriceHistory market ty st).1)
        (handleBetToggle fetchPriceHistory market ty st).1).1 = [] ∧
   cryptoCacheRef
     (cryptoEffect allKlines crypto
        (timeRange (handleBetToggle fetchPriceHistory market ty st).1)
        (handleBetToggle fetchPriceHistory market ty st).1).1 = None).
Proof.
  intros Hin.
  assert (Hhas : mapHas (generateBetKey (id market) ty) (selectedBets st) = true).
  { unfold mapHas. by apply bool_decide_eq_true_2. }
  assert (Hclick : handleBetToggle fetchPriceHistory market ty st =
            (setSelectedBets (mapDelete (generateBetKey (id market) ty)) st, [])).
  { unfold handleBetToggle. rewrite Hhas. simpl.
    unfold setSelectedBets, toggleSelection. by rewrite Hhas. }
  rewrite Hclick. simpl.
  assert (Hkeys : ∀ k : string,
            k ∈ mapKeys (mapDelete (generateBetKey (id market) ty) (selectedBets st)) ↔
            k ∈ mapKeys (selectedBets st) ∧ k ≠ generateBetKey (id market) ty).
  { intros k. unfold mapKeys, mapDelete. rewrite !list_elem_of_fmap. split.
    - intros (kv & -> & Hkv). apply list_elem_of_filter in Hkv as [Hne Hkv].
      split; [by exists kv|done].
    - intros [(kv & -> & Hkv) Hne]. exists kv. split; [done|].
      by apply list_elem_of_filter. }
  split; [done|]. split; [done|]. split; [by rewrite Hkeys; intros [_ Hne]|].
  split; [done|]. split; [done|]. split.
  - rewrite timeRange_null. simpl. split.
    + intros Hall k h Hk Hne. apply Hall. by apply Hkeys.
    + intros Hall k h Hk. apply Hkeys in Hk as [Hk Hne]. by apply Hall.
  - intros ->. rewrite (cryptoEffect_resets allKlines crypto None) by (by right).
    simpl. split; [done|]. split; [|done].
    apply (clearCrypto_empty
             (setSelectedBets (mapDelete (generateBetKey (id market) ty)) st)).
Qed.

(** One click keeps what holds between clicks. *)
Lemma handleBetToggle_betweenClicks (market : ParsedMarket) (ty : BetType) (st : State) :
  betweenClicks st → betweenClicks (handleBetToggle fetchPriceHistory market ty st).1.
Proof.
  intros (Hnd & Hkeys & Hstored & Hsorted & Hloading).
  split; [|split; [by apply handleBetToggle_keys_are_bet_keys|]].
  { unfold handleBetToggle, toggleSelection.
    destruct (mapHas _ (selectedBets st)) eqn:Hhas; simpl; rewrite ?Hhas.
    - unfold mapKeys, mapDelete. eapply sublist_NoDup; [exact Hnd|].
      apply fmap_sublist, sublist_filter.
    - pose proof (proj1 (mapHas_false _ _) Hhas) as Hnot.
      assert (Hadded : ∀ bet, NoDup (mapKeys
                (mapSet (generateBetKey (id market) ty) bet (selectedBets st)))).
      { intros bet. unfold mapSet. rewrite Hhas.
        unfold mapKeys. rewrite fmap_app. apply NoDup_app. split; [done|].
        split; [|apply NoDup_singleton].
        intros k Hk Hk'. apply list_elem_of_singleton in Hk' as ->. done. }
      case_bool_decide; simpl; rewrite ?Hhas; [done|].
      destruct (fetchPriceHistory _); simpl; rewrite ?Hhas; [done|].
      rewrite mapDelete_mapSet_absent; done. }
  split; [|split].
  - intros k. unfold handleBetToggle, toggleSelection.
    destruct (mapHas _ (selectedBets st)) eqn:Hhas; simpl; rewrite ?Hhas.
    + intros Hk. apply Hstored. by eapply mapKeys_mapDelete.
    + pose proof (proj1 (mapHas_false _ _) Hhas) as Hnot.
      case_bool_decide as Hhist; simpl; rewrite ?Hhas.
      * intros Hk. apply mapKeys_mapSet in Hk as [->|Hk]; [done|by apply Hstored].
      * destruct (fetchPriceHistory _); simpl; rewrite ?Hhas.
        -- intros Hk. apply mapKeys_mapSet in Hk as [->|Hk].
           ++ rewrite lookup_insert_eq. by eexists.
           ++ destruct (decide (generateBetKey (id market) ty = k)) as [->|Hne];
                [rewrite lookup_insert_eq; by eexists|].
              rewrite lookup_insert_ne by done. by apply Hstored.
        -- rewrite mapDelete_mapSet_absent by done. apply Hstored.
  - intros k h. unfold handleBetToggle.
    destruct (mapHas _ (selectedBets st)); simpl; [apply Hsorted|].
    case_bool_decide; simpl; [apply Hsorted|].
    destruct (fetchPriceHistory _); simpl; [|apply Hsorted].
    destruct (decide (generateBetKey (id market) ty = k)) as [->|Hne].
    + rewrite lookup_insert_eq. intros [= <-]. apply sortBy_ascending.
    + rewrite lookup_insert_ne by done. apply Hsorted.
  - unfold handleBetToggle.
    destruct (mapHas _ (selectedBets st)); simpl; [done|].
    case_bool_decide; simpl; [done|].
    destruct (fetchPriceHistory _); simpl; rewrite Hloading, (left_id_L ∅ (∪));
      apply difference_diag_L.
Qed.

Lemma handleBetToggles_betweenClicks (clicks : list (ParsedMarket * BetType)) (st : State) :
  betweenClicks st → betweenClicks (handleBetToggles fetchPriceHistory clicks st).
Proof.
  revert st. induction clicks as [|[market ty] clicks IH]; intros st Hinv; [done|].
  apply IH. by apply handleBetToggle_betweenClicks.
Qed.

Lemma initialState_betweenClicks : betweenClicks initialState.
Proof.
  split; [apply NoDup_nil_2|]. split; [apply Forall_nil_2|].
  split; [intros k Hk; by apply elem_of_nil in Hk|]. split; [|done].
  intros k h Hk. simpl in Hk. by rewrite lookup_empty in Hk.
Qed.

(** X14. After any sequence of clicks from the initial state, every selected
    key has a stored history and every stored history is sorted ascending by
    [t]: a selected series is never without data, and the binary search
    always runs on a sorted array. *)
Theorem session_selected_have_sorted_history (clicks : list (ParsedMarket * BetType))
    (k : string) :
  k ∈ mapKeys (selectedBets (handleBetToggles fetchPriceHistory clicks initialState)) →
  ∃ h : list PricePoint,
    priceHistories (handleBetToggles fetchPriceHistory clicks initialState) !! k = Some h ∧
    ascending t h.
Proof.
  intros Hk.
  destruct (handleBetToggles_betweenClicks clicks initialState initialState_betweenClicks)
    as (_ & _ & Hstored & Hsorted & _).
  destruct (Hstored k Hk) as [h Hh]. exists h. split; [done|]. by eapply Hsorted.
Qed.

(** X15. After any sequence of clicks from the initial state, the selected
    keys are pairwise distinct, each is the key of a market side, and no key
    is still marked as loading. *)
Theorem session_keys_distinct_and_idle (clicks : list (ParsedMarket * BetType)) :
  NoDup (mapKeys (selectedBets (handleBetToggles fetchPriceHistory clicks initialState))) ∧
  Forall isBetKey
    (mapKeys (selectedBets (handleBetToggles fetchPriceHistory clicks initialState))) ∧
  loadingBets (handleBetToggles fetchPriceHistory clicks initialState) = ∅.
Proof.
  destruct (handleBetToggles_betweenClicks clicks initialState initialState_betweenClicks)
    as (Hnd & Hkeys & _ & _ & Hloading).
  done.
Qed.
End ToggleSession.

Lemma handleBetToggle_success_stores_sorted_witness :
  let fetch := constantPriceHistory [mkPricePoint 20 0.4; mkPricePoint 10 0.3] in
  ∃ stored : list PricePoint,
    priceHistories (handleBetToggle fetch someMarket YES initialState).1
      !! generateBetKey (id someMarket) YES = Some stored ∧
    ascending t stored ∧
    stored ≡ₚ history (mkPriceHistory [mkPricePoint 20 0.4; mkPricePoint 10 0.3]) ∧
    (∀ k : string, k ≠ generateBetKey (id someMarket) YES →
       priceHistories (handleBetToggle fetch someMarket YES initialState).1 !! k
       = priceHistories initialState !! k) ∧
    mapKeys (selectedBets (handleBetToggle fetch someMarket YES initialState).1)
      = mapKeys (selectedBets initialState) ++ [generateBetKey (id someMarket) YES] ∧
    error (handleBetToggle fetch someMarket YES initialState).1 = None.
Proof.
  apply (handleBetToggle_success_stores_sorted
           (constantPriceHistory [mkPricePoint 20 0.4; mkPricePoint 10 0.3])
           someMarket YES initialState (mkPriceHistoryRequest "tokenYes" "1700000000" 10)).
  - vm_compute. reflexivity.
  - reflexivity.
Defined.

Lemma handleBetToggle_deselect_witness :
  let market := mkParsedMarket "A" "Will it rain?" "" 0 0 1700000000 "tokenYes" "tokenNo" in
  let clicked := (handleBetToggle failingPriceHistory market YES lastKeyState).1 in
  (handleBetToggle failingPriceHistory market YES lastKeyState).2 = [] ∧
  selectedBets clicked = [] ∧
  priceHistories clicked = priceHistories lastKeyState ∧
  error clicked = error lastKeyState ∧
  cryptoPrices lastKeyState = [mkPricePoint 10 1; mkPricePoint 20 2] ∧
  timeRange lastKeyState = Some (mkRange 10 20) ∧
  timeRange clicked = None ∧
  (cryptoEffect endCandles BTC (timeRange clicked) clicked).2 = [] ∧
  cryptoPrices (cryptoEffect endCandles BTC (timeRange clicked) clicked).1 = [] ∧
  cryptoCacheRef (cryptoEffect endCandles BTC (timeRange clicked) clicked).1 = None.
Proof.
  destruct (handleBetToggle_deselect failingPriceHistory endCandles BTC
              (mkParsedMarket "A" "Will it rain?" "" 0 0 1700000000 "tokenYes" "tokenNo")
              YES lastKeyState)
    as (Hrequests & Hselected & _ & Hhistories & Herror & Hrange & Heffect).
  { left. }
  assert (Hnull : timeRange
            (handleBetToggle failingPriceHistory
               (mkParsedMarket "A" "Will it rain?" "" 0 0 1700000000 "tokenYes" "tokenNo")
               YES lastKeyState).1 = None).
  { apply Hrange. intros k h Hk Hne. exfalso.
    apply list_elem_of_singleton in Hk. exact (Hne Hk). }
  destruct (Heffect Hnull) as (Hnone & Hprices & Hcache).
  split; [exact Hrequests|]. split; [exact Hselected|]. split; [exact Hhistories|].
  split; [exact Herror|]. split; [reflexivity|]. split; [reflexivity|].
  split; [exact Hnull|]. split; [exact Hnone|]. split; [exact Hprices|exact Hcache].
Defined.

Lemma session_selected_have_sorted_history_witness :
  ∃ h : list PricePoint,
    priceHistories
      (handleBetToggles (constantPriceHistory seriesA) [(someMarket, YES)] initialState)
      !! generateBetKey "C" YES = Some h ∧
    ascending t h.
Proof.
  apply (session_selected_have_sorted_history (constantPriceHistory seriesA)
           [(someMarket, YES)] (generateBetKey "C" YES)).
  vm_compute. left.
Defined.

(** ** The crypto cache: what a merge keeps *)

(** [sort] is stable: the samples with a given timestamp keep their order. *)
Lemma insertBy_filter_t (z : Z) (x : PricePoint) (l : list PricePoint) :
  filter (λ y, t y = z) (insertBy t x l) =
  if decide (t x = z) then x :: filter (λ y, t y = z) l else filter (λ y, t y = z) l.
Proof.
  induction l as [|y l IH]; simpl.
  - rewrite filter_cons, filter_nil. by case_decide.
  - case_bool_decide as Hle.
    + rewrite (filter_cons _ x). by case_decide.
    + rewrite !(filter_cons _ y), IH.
      destruct (decide (t y = z)) as [Hy|Hy], (decide (t x = z)) as [Hx|Hx];
        try done. lia.
Qed.

Lemma sortBy_filter_t (z : Z) (l : list PricePoint) :
  filter (λ y, t y = z) (sortBy t l) = filter (λ y, t y = z) l.
Proof.
  induction l as [|x l IH]; [done|]. cbn [sortBy foldr].
  change (foldr (insertBy t) [] l) with (sortBy t l).
  rewrite insertBy_filter_t, IH, filter_cons. done.
Qed.

Lemma filter_t_none (z : Z) (l : list PricePoint) :
  Forall (λ y, t y ≠ z) l → filter (λ y, t y = z) l = [].
Proof.
  induction 1 as [|y l Hy Hall IH]; [done|]. by rewrite filter_cons_False.
Qed.

(** On a sorted series the filter keeps, for each timestamp, the first
    sample that has it. *)
Lemma dedupeAfter_filter_t (z prev : Z) (l : list PricePoint) :
  ascending t l → Forall (λ y, prev ≤ t y) l →
  filter (λ y, t y = z) (dedupeAfter prev l) =
  if decide (z = prev) then [] else take 1 (filter (λ y, t y = z) l).
Proof.
  unfold ascending. intros Hs. revert prev.
  induction Hs as [|x l Hs IH Hall]; intros prev Hprev.
  - simpl. rewrite filter_nil. by case_decide.
  - apply Forall_cons in Hprev as [Hx Hprev]. cbn [dedupeAfter].
    specialize (IH (t x) Hall). rewrite (filter_cons _ x l).
    destruct (decide (t x ≠ prev)) as [Hne|Heq].
    + rewrite filter_cons, IH.
      destruct (decide (t x = z)) as [Hz|Hz], (decide (z = t x)) as [Hz'|Hz'],
        (decide (z = prev)) as [Hzp|Hzp]; try done; try lia.
      subst prev. rewrite filter_t_none; [done|].
      eapply Forall_impl; [exact Hall|]. simpl. intros y Hy. lia.
    + assert (Hsame : t x = prev) by (destruct (decide (t x = prev)); [done|tauto]).
      rewrite IH.
      destruct (decide (t x = z)) as [Hz|Hz], (decide (z = t x)) as [Hz'|Hz'],
        (decide (z = prev)) as [Hzp|Hzp]; try done; lia.
Qed.

Lemma dedupe_filter_t (z : Z) (l : list PricePoint) :
  ascending t l →
  filter (λ y, t y = z) (dedupe l) = take 1 (filter (λ y, t y = z) l).
Proof.
  intros Hs. destruct l as [|x l]; [done|].
  rewrite dedupe_cons. apply StronglySorted_inv in Hs as [Hs Hall].
  rewrite !(filter_cons _ x), (dedupeAfter_filter_t z (t x) l Hs Hall).
  destruct (decide (t x = z)) as [Hz|Hz].
  - by rewrite decide_True by done.
  - by rewrite decide_False by lia.
Qed.

Lemma strictlyAscending_ascending {A : Type} (key : A → Z) (l : list A) :
  strictlyAscending key l → ascending key l.
Proof.
  unfold strictlyAscending, ascending. induction 1 as [|x l Hs IH Hall]; constructor; [done|].
  eapply Forall_impl; [exact Hall|]. simpl. intros y Hy. lia.
Qed.

Lemma strictlyAscending_filter_t (l : list PricePoint) (x : PricePoint) :
  strictlyAscending t l → x ∈ l → filter (λ y, t y = t x) l = [x].
Proof.
  unfold strictlyAscending. induction 1 as [|y l Hs IH Hall]; intros Hin.
  - by apply elem_of_nil in Hin.
  - rewrite filter_cons. apply elem_of_cons in Hin as [->|Hin].
    + rewrite decide_True by done. f_equal. apply filter_t_none.
      eapply Forall_impl; [exact Hall|]. simpl. intros z Hz. lia.
    + rewrite Forall_forall in Hall. specialize (Hall x Hin).
      rewrite decide_False by lia. by apply IH.
Qed.

Section CacheMerge.
Variable allKlines : CryptoRequest → option (list PricePoint).

(** The stored series after a successful extension. *)
Lemma fetchCrypto_merge (crypto : CryptoOption) (range : Range) (cache : CryptoCache)
    (st : State) (arrays : list (list PricePoint)) :
  cryptoCacheRef st = Some cache → cacheCrypto cache = crypto → cryptoPrices st ≠ [] →
  ¬ (cacheMin cache ≤ rangeMin range ∧ rangeMax range ≤ cacheMax cache) →
  mapM (fetchCryptoPriceHistory allKlines) (fetchCrypto allKlines crypto range st).2
    = Some arrays →
  cryptoPrices (fetchCrypto allKlines crypto range st).1
    = dedupe (sortBy t (cryptoPrices st ++ concat arrays)).
Proof.
  intros Hcache Hkind Hprices Hout.
  rewrite (fetchCrypto_with_coverage allKlines crypto range cache) by done.
  rewrite fetchMissingRanges_miss by done.
  destruct (mapM (fetchCryptoPriceHistory allKlines)
              (rangeRequest crypto <$> fetchRanges range cache))
    as [newPricesArrays|] eqn:Hall; simpl; rewrite Hall; by intros [= <-].
Qed.

(** X16. With coverage for the current kind, every request [fetchCrypto]
    issues is for that kind and for uncovered time only: it runs from the
    requested start to the covered start, or from the covered end to the
    requested end. *)
Theorem fetchCrypto_requests_uncovered_only (crypto : CryptoOption) (range : Range)
    (cache : CryptoCache) (st : State) (req : CryptoRequest) :
  cryptoCacheRef st = Some cache → cacheCrypto cache = crypto → cryptoPrices st ≠ [] →
  req ∈ (fetchCrypto allKlines crypto range st).2 →
  reqCrypto req = crypto ∧
  ((reqStartTime req = rangeMin range ∧ reqEndTime req = cacheMin cache ∧
      rangeMin range < cacheMin cache) ∨
   (reqStartTime req = cacheMax cache ∧ reqEndTime req = rangeMax range ∧
      cacheMax cache < rangeMax range)).
Proof.
  intros Hcache Hkind Hprices.
  rewrite (fetchCrypto_with_coverage allKlines crypto range cache) by done.
  destruct (decide (cacheMin cache ≤ rangeMin range ∧ rangeMax range ≤ cacheMax cache))
    as [Hin|Hout].
  { unfold fetchMissingRanges. rewrite !bool_decide_eq_true_2 by lia. simpl.
    intros Hreq. by apply elem_of_nil in Hreq. }
  rewrite fetchMissingRanges_miss by done.
  assert (Hreqs : req ∈ rangeRequest crypto <$> fetchRanges range cache →
    reqCrypto req = crypto ∧
    ((reqStartTime req = rangeMin range ∧ reqEndTime req = cacheMin cache ∧
        rangeMin range < cacheMin cache) ∨
     (reqStartTime req = cacheMax cache ∧ reqEndTime req = rangeMax range ∧
        cacheMax cache < rangeMax range))).
  { unfold fetchRanges. intros Hreq.
    apply list_elem_of_fmap in Hreq as (r & -> & Hr).
    apply elem_of_app in Hr as [Hr|Hr]; case_decide; try (by apply elem_of_nil in Hr);
      apply list_elem_of_singleton in Hr as ->; simpl; split; try done.
    - left. lia.
    - right. lia. }
  by destruct (mapM _ _).
Qed.

(** X17. After a successful extension the stored series holds, for each
    timestamp, exactly the first sample with that timestamp in the old
    series followed by the fetched ones; no timestamp is lost and none is
    stored twice. *)
Theorem fetchCrypto_merge_first_per_timestamp (crypto : CryptoOption) (range : Range)
    (cache : CryptoCache) (st : State) (arrays : list (list PricePoint)) (z : Z) :
  cryptoCacheRef st = Some cache → cacheCrypto cache = crypto → cryptoPrices st ≠ [] →
  ¬ (cacheMin cache ≤ rangeMin range ∧ rangeMax range ≤ cacheMax cache) →
  mapM (fetchCryptoPriceHistory allKlines) (fetchCrypto allKlines crypto range st).2
    = Some arrays →
  filter (λ y, t y = z) (cryptoPrices (fetchCrypto allKlines crypto range st).1)
    = take 1 (filter (λ y, t y = z) (cryptoPrices st ++ concat arrays)).
Proof.
  intros Hcache Hkind Hprices Hout Hall.
  rewrite (fetchCrypto_merge crypto range cache st arrays) by done.
  rewrite dedupe_filter_t by apply sortBy_ascending.
  by rewrite sortBy_filter_t.
Qed.

(** X18. A successful extension never replaces a cached sample: when the
    stored series is sorted and has no timestamp twice, each of its samples
    is still stored afterwards, also when a fetched sample has the same
    timestamp. *)
Theorem fetchCrypto_merge_keeps_cached (crypto : CryptoOption) (range : Range)
    (cache : CryptoCache) (st : State) (arrays : list (list PricePoint)) (x : PricePoint) :
  cryptoCacheRef st = Some cache → cacheCrypto cache = crypto →
  ¬ (cacheMin cache ≤ rangeMin range ∧ rangeMax range ≤ cacheMax cache) →
  mapM (fetchCryptoPriceHistory allKlines) (fetchCrypto allKlines crypto range st).2
    = Some arrays →
  strictlyAscending t (cryptoPrices st) →
  x ∈ cryptoPrices st →
  x ∈ cryptoPrices (fetchCrypto allKlines crypto range st).1.
Proof.
  intros Hcache Hkind Hout Hall Hstrict Hx.
  assert (Hprices : cryptoPrices st ≠ []).
  { intros Hnil. rewrite Hnil in Hx. by apply elem_of_nil in Hx. }
  rewrite (fetchCrypto_merge crypto range cache st arrays) by done.
  assert (Hfilter : filter (λ y, t y = t x)
                      (dedupe (sortBy t (cryptoPrices st ++ concat arrays))) = [x]).
  { rewrite dedupe_filter_t by apply sortBy_ascending.
    rewrite sortBy_filter_t, filter_app, (strictlyAscending_filter_t _ x) by done.
    done. }
  assert (Hin : x ∈ filter (λ y, t y = t x)
                      (dedupe (sortBy t (cryptoPrices st ++ concat arrays)))).
  { rewrite Hfilter. by left. }
  by apply list_elem_of_filter in Hin as [_ Hin].
Qed.

(** One run of the effect keeps the stored crypto series sorted. *)
Lemma cryptoEffect_ascending (crypto : CryptoOption) (range : option Range) (st : State) :
  ascending t (cryptoPrices st) →
  ascending t (cryptoPrices (cryptoEffect allKlines crypto range st).1).
Proof.
  intros Hsorted.
  assert (Hclear : ascending t (cryptoPrices (clearCrypto st))).
  { destruct (clearCrypto_empty st) as [_ ->]. constructor. }
  assert (Hentire : ∀ r, ascending t (cryptoPrices (fetchEntireRange allKlines crypto r st).1)).
  { intros r. unfold fetchEntireRange.
    destruct (fetchCryptoPriceHistory allKlines _) as [prices|] eqn:Hfetch; simpl; [|done].
    by eapply fetchCryptoPriceHistory_ascending. }
  unfold cryptoEffect. destruct range as [r|]; [|done].
  case_decide; [done|]. unfold fetchCrypto.
  destruct (cryptoCacheRef st) as [cache|]; [|apply Hentire].
  destruct (_ || _); [apply Hentire|].
  unfold fetchMissingRanges. destruct (_ && _); [done|].
  case_decide; [done|]. destruct (mapM _ _); simpl; [|done].
  apply strictlyAscending_ascending, dedupe_strictlyAscending, sortBy_ascending.
Qed.

(** X19. After any sequence of runs of the crypto effect from the initial
    state, whatever the kinds, ranges and fetch results, the stored crypto
    series is sorted ascending by [t]. *)
Theorem cryptoEffects_keep_sorted (steps : list (CryptoOption * option Range)) :
  ascending t (cryptoPrices (cryptoEffects allKlines steps initialState)).
Proof.
  assert (Hany : ∀ st, ascending t (cryptoPrices st) →
                       ascending t (cryptoPrices (cryptoEffects allKlines steps st))).
  { induction steps as [|[crypto range] steps IH]; intros st Hsorted; [done|].
    apply IH. by apply cryptoEffect_ascending. }
  apply Hany. constructor.
Qed.

(** X20. Once the effect has run with no crypto kind or no time range, the
    coverage is gone: it issued no request, the stored series is empty and
    the cache is dropped, and the next [fetchCrypto], for any kind and range,
    issues a single request for the entire range. *)
Theorem fetchCrypto_after_reset_fetches_entire_range (crypto crypto' : CryptoOption)
    (range : option Range) (range' : Range) (st : State) :
  crypto = NONE ∨ range = None →
  (cryptoEffect allKlines crypto range st).2 = [] ∧
  cryptoPrices (cryptoEffect allKlines crypto range st).1 = [] ∧
  cryptoCacheRef (cryptoEffect allKlines crypto range st).1 = None ∧
  (fetchCrypto allKlines crypto' range' (cryptoEffect allKlines crypto range st).1).2
    = [mkCryptoRequest crypto' (rangeMin range') (rangeMax range')].
Proof.
  intros Hoff. rewrite (cryptoEffect_resets allKlines crypto range st Hoff). simpl.
  destruct (clearCrypto_empty st) as [Hcache Hprices].
  split; [done|]. split; [done|]. split; [done|].
  rewrite fetchCrypto_without_coverage by (by left).
  unfold fetchEntireRange, rangeRequest. by destruct (fetchCryptoPriceHistory allKlines _).
Qed.
End CacheMerge.

Lemma fetchCrypto_requests_uncovered_only_witness :
  reqCrypto (mkCryptoRequest BTC 200 250) = BTC ∧
  ((reqStartTime (mkCryptoRequest BTC 200 250) = rangeMin (mkRange 50 250) ∧
      reqEndTime (mkCryptoRequest BTC 200 250) = cacheMin (mkCryptoCache BTC 100 200) ∧
      rangeMin (mkRange 50 250) < cacheMin (mkCryptoCache BTC 100 200)) ∨
   (reqStartTime (mkCryptoRequest BTC 200 250) = cacheMax (mkCryptoCache BTC 100 200) ∧
      reqEndTime (mkCryptoRequest BTC 200 250) = rangeMax (mkRange 50 250) ∧
      cacheMax (mkCryptoCache BTC 100 200) < rangeMax (mkRange 50 250))).
Proof.
  apply (fetchCrypto_requests_uncovered_only endCandles BTC (mkRange 50 250)
           (mkCryptoCache BTC 100 200) coveredState (mkCryptoRequest BTC 200 250)).
  - vm_compute. reflexivity.
  - reflexivity.
  - vm_compute. discriminate.
  - vm_compute. right. left.
Defined.

Lemma fetchCrypto_merge_first_per_timestamp_witness :
  filter (λ y, t y = 100)
    (cryptoPrices (fetchCrypto endCandles BTC (mkRange 50 250) coveredState).1)
  = take 1 (filter (λ y, t y = 100)
              (cryptoPrices coveredState ++
               concat [[mkPricePoint 50 1; mkPricePoint 100 2];
                       [mkPricePoint 200 1; mkPricePoint 250 2]])).
Proof.
  apply (fetchCrypto_merge_first_per_timestamp endCandles BTC (mkRange 50 250)
           (mkCryptoCache BTC 100 200) coveredState).
  - vm_compute. reflexivity.
  - reflexivity.
  - vm_compute. discriminate.
  - simpl. lia.
  - vm_compute. reflexivity.
Defined.

(** In the witness above the cached candle at 100 has price 1 and the fetched
    one price 2: the stored one is still the cached candle. *)
Lemma fetchCrypto_merge_keeps_cached_witness :
  mkPricePoint 100 1 ∈ cryptoPrices (fetchCrypto endCandles BTC (mkRange 50 250) coveredState).1.
Proof.
  apply (fetchCrypto_merge_keeps_cached endCandles BTC (mkRange 50 250)
           (mkCryptoCache BTC 100 200) coveredState
           [[mkPricePoint 50 1; mkPricePoint 100 2];
            [mkPricePoint 200 1; mkPricePoint 250 2]]).
  - vm_compute. reflexivity.
  - reflexivity.
  - simpl. lia.
  - vm_compute. reflexivity.
  - refine (bool_decide_unpack (strictlyAscending t _) _). vm_compute. exact I.
  - vm_compute. left.
Defined.

Lemma fetchCrypto_after_reset_fetches_entire_range_witness :
  (cryptoEffect endCandles NONE (Some (mkRange 100 200)) coveredState).2 = [] ∧
  cryptoPrices (cryptoEffect endCandles NONE (Some (mkRange 100 200)) coveredState).1 = [] ∧
  cryptoCacheRef (cryptoEffect endCandles NONE (Some (mkRange 100 200)) coveredState).1 = None ∧
  (fetchCrypto endCandles BTC (mkRange 150 160)
     (cryptoEffect endCandles NONE (Some (mkRange 100 200)) coveredState).1).2
    = [mkCryptoRequest BTC (rangeMin (mkRange 150 160)) (rangeMax (mkRange 150 160))].
Proof.
  apply (fetchCrypto_after_reset_fetches_entire_range endCandles NONE BTC
           (Some (mkRange 100 200)) (mkRange 150 160) coveredState).
  by left.
Defined.

(** ** [hashString] and [getBetColor] *)

Lemma toInt32_range (z : Z) : - 2 ^ 31 ≤ toInt32 z < 2 ^ 31.
Proof. unfold toInt32. pose proof (Z.mod_pos_bound (z + 2 ^ 31) (2 ^ 32)). lia. Qed.

Lemma toInt32_small (z : Z) : - 2 ^ 31 ≤ z < 2 ^ 31 → toInt32 z = z.
Proof. intros Hz. unfold toInt32. rewrite Z.mod_small by lia. lia. Qed.

Lemma toInt32_mod (z : Z) : toInt32 z mod 2 ^ 32 = z mod 2 ^ 32.
Proof.
  unfold toInt32. rewrite Zminus_mod_idemp_l. f_equal. lia.
Qed.

(** [ToInt32] only depends on the number modulo 2^32. *)
Lemma toInt32_congr (x y : Z) : x mod 2 ^ 32 = y mod 2 ^ 32 → toInt32 x = toInt32 y.
Proof.
  intros Heq. unfold toInt32.
  rewrite <- (Zplus_mod_idemp_l x), <- (Zplus_mod_idemp_l y), Heq. done.
Qed.

Lemma hashStep_wrapped (hash : Z) (c : Ascii.ascii) :
  - 2 ^ 31 ≤ hash < 2 ^ 31 → hashStep hash c = toInt32 (63 * hash + charCode c).
Proof.
  intros Hrange. unfold hashStep. cbv zeta.
  rewrite Z.land_diag, (toInt32_small hash) by done.
  rewrite Z.shiftl_mul_pow2 by lia.
  apply toInt32_congr.
  replace (toInt32 (hash * 2 ^ 6) - hash + charCode c)
    with (toInt32 (hash * 2 ^ 6) + (- hash + charCode c)) by lia.
  rewrite <- Zplus_mod_idemp_l, toInt32_mod, Zplus_mod_idemp_l. f_equal. lia.
Qed.

Lemma hashLoop_polynomial (hash acc : Z) (str : string) :
  - 2 ^ 31 ≤ hash < 2 ^ 31 → hash = toInt32 acc →
  hashLoop hash str = toInt32 (hashPolynomial acc str).
Proof.
  revert hash acc. induction str as [|c str IH]; intros hash acc Hrange Hacc; [done|].
  cbn [hashLoop hashPolynomial]. apply IH.
  - rewrite hashStep_wrapped by done. apply toInt32_range.
  - rewrite hashStep_wrapped by done. subst hash. apply toInt32_congr.
    rewrite <- Zplus_mod_idemp_l, <- Zmult_mod_idemp_r, toInt32_mod.
    by rewrite Zmult_mod_idemp_r, Zplus_mod_idemp_l.
Qed.

(** X21. [hashString] is the absolute value of the base-63 polynomial of the
    character codes, wrapped once to a signed 32-bit integer: the wrap-around
    at every step of the loop and the [hash & hash] change nothing else. *)
Theorem hashString_polynomial (str : string) :
  hashString str = Z.abs (toInt32 (hashPolynomial 0 str)).
Proof.
  unfold hashString. f_equal. apply hashLoop_polynomial; [lia|].
  symmetry. apply toInt32_small. lia.
Qed.

Lemma hashString_range_aux (str : string) : 0 ≤ hashString str ≤ 2 ^ 31.
Proof.
  unfold hashString.
  rewrite (hashLoop_polynomial 0 0 str) by (try lia; symmetry; apply toInt32_small; lia).
  pose proof (toInt32_range (hashPolynomial 0 str)). lia.
Qed.

(** X22. [hashString] is between 0 and 2^31, both included. *)
Theorem hashString_range (str : string) : 0 ≤ hashString str ≤ 2 ^ 31.
Proof. apply hashString_range_aux. Qed.

(** X23. [getBetColor] always finds a colour, and it is one of the eight
    shades of the bet's side: green for YES, red for NO. *)
Theorem getBetColor_in_shades (betKey : string) (betType : BetType) :
  ∃ color : string,
    getBetColor betKey betType = Some color ∧
    color ∈ match betType with YES => YES_SHADES | NO => NO_SHADES end.
Proof.
  unfold getBetColor. cbv zeta.
  set (shades := match betType with YES => YES_SHADES | NO => NO_SHADES end).
  assert (Hlen : Z.of_nat (length shades) = 8) by (by destruct betType).
  rewrite Hlen. pose proof (hashString_range_aux betKey) as Hhash.
  pose proof (Z.rem_bound_pos (hashString betKey) 8 ltac:(lia) ltac:(lia)) as Hrem.
  rewrite decide_True by lia.
  destruct (shades !! Z.to_nat (Z.rem (hashString betKey) 8)) as [color|] eqn:Hcolor.
  - exists color. split; [done|]. by eapply list_elem_of_lookup_2.
  - apply lookup_ge_None in Hcolor. lia.
Qed.

(** ** The paging loop of [fetchCryptoPriceHistory] *)

Example pagedKlines_fiveMinuteCandles :
  pagedKlines fiveMinuteCandles 10 (mkCryptoRequest BTC 0 1200) =
  (PagesDone [mkPricePoint 0 1; mkPricePoint 300 2; mkPricePoint 600 1;
              mkPricePoint 900 2; mkPricePoint 1200 1],
   [mkKlinesRequest (Some "BTCUSDT") 0 1200000;
    mkKlinesRequest (Some "BTCUSDT") 360000 1200000;
    mkKlinesRequest (Some "BTCUSDT") 960000 1200000]).
Proof. vm_compute. reflexivity. Qed.

Lemma minutesLeft_step (currentStartTime next endTimeMs : Z) :
  currentStartTime < endTimeMs → currentStartTime + 60000 ≤ next →
  (minutesLeft next endTimeMs < minutesLeft currentStartTime endTimeMs)%nat.
Proof.
  intros Hlt Hnext. unfold minutesLeft.
  set (n := endTimeMs - currentStartTime + 59999).
  assert (Hone : 1 ≤ n / 60000).
  { apply Z.div_le_lower_bound; lia. }
  assert (Hless : (endTimeMs - next + 59999) / 60000 ≤ n / 60000 - 1).
  { transitivity ((n + (-1) * 60000) / 60000).
    - apply Z.div_le_mono; lia.
    - rewrite Z.div_add by lia. lia. }
  lia.
Qed.

Section Paging.
Variable axiosGet : KlinesRequest → option (list Kline).

(** X24. For a range that is empty or inverted ([endTime <= startTime]) the
    loop issues no request at all and [fetchCryptoPriceHistory] resolves to
    the empty series. *)
Theorem fetchCryptoPriceHistory_empty_range (turns : nat) (req : CryptoRequest) :
  (0 < turns)%nat →
  reqEndTime req ≤ reqStartTime req →
  pagedKlines axiosGet turns req = (PagesDone [], []) ∧
  fetchCryptoPriceHistory (allKlinesOf axiosGet turns) req = Some [].
Proof.
  intros Hturns Hrange.
  assert (Hpaged : pagedKlines axiosGet turns req = (PagesDone [], [])).
  { unfold pagedKlines. destruct turns as [|turns]; [lia|]. simpl.
    by rewrite decide_False by lia. }
  split; [done|].
  unfold fetchCryptoPriceHistory, allKlinesOf. by rewrite Hpaged.
Qed.

(** The requests of the loop when the exchange answers from the requested
    start: the loop ends within the minutes left, and every request stays in
    the window. *)
Lemma klinePages_progress (turns : nat) (symbol : option string)
    (currentStartTime endTimeMs : Z) (allKlines : list PricePoint) :
  answersFromStart axiosGet →
  (minutesLeft currentStartTime endTimeMs < turns)%nat →
  (klinePages axiosGet turns symbol currentStartTime endTimeMs allKlines).1 ≠ PagesPending ∧
  (length (klinePages axiosGet turns symbol currentStartTime endTimeMs allKlines).2
     ≤ minutesLeft currentStartTime endTimeMs)%nat ∧
  ∀ request : KlinesRequest,
    request ∈ (klinePages axiosGet turns symbol currentStartTime endTimeMs allKlines).2 →
    klSymbol request = symbol ∧ klEndTime request = endTimeMs ∧
    currentStartTime ≤ klStartTime request < endTimeMs.
Proof.
  intros Hanswers. revert currentStartTime allKlines.
  induction turns as [|turns IH]; intros currentStartTime allKlines Hturns; [lia|].
  cbn [klinePages]. case_decide as Hlt.
  - assert (Hpos : (1 ≤ minutesLeft currentStartTime endTimeMs)%nat).
    { unfold minutesLeft.
      assert (1 ≤ (endTimeMs - currentStartTime + 59999) / 60000)
        by (apply Z.div_le_lower_bound; lia).
      lia. }
    assert (Hfirst : ∀ request,
      request ∈ [mkKlinesRequest symbol currentStartTime endTimeMs] →
      klSymbol request = symbol ∧ klEndTime request = endTimeMs ∧
      currentStartTime ≤ klStartTime request < endTimeMs).
    { intros request Hin. apply list_elem_of_singleton in Hin as ->. simpl.
      split; [done|]. split; [done|]. lia. }
    destruct (axiosGet _) as [klines|] eqn:Hget;
      [|simpl; split; [done|]; split; [lia|exact Hfirst]].
    case_decide as Hlen; [simpl; split; [done|]; split; [lia|exact Hfirst]|].
    cbv zeta. cbn [fst snd].
    set (lastKlineTime := klineOpenTime (klines !!! (length klines - 1)%nat)).
    assert (Hlast : currentStartTime ≤ lastKlineTime).
    { apply (Hanswers _ klines _ Hget). apply list_elem_of_lookup_total_2. lia. }
    pose proof (minutesLeft_step currentStartTime (lastKlineTime + 60000) endTimeMs
                  Hlt ltac:(lia)) as Hless.
    destruct (IH (lastKlineTime + 60000) (allKlines ++ (klinePoint <$> klines))
                ltac:(lia)) as (Hdone & Hcount & Hshape).
    split; [done|]. split; [simpl; lia|].
    intros request Hin. apply elem_of_cons in Hin as [->|Hin].
    { simpl. split; [done|]. split; [done|]. lia. }
    destruct (Hshape request Hin) as (? & ? & ?). split; [done|]. split; [done|]. lia.
  - simpl. split; [done|]. split; [lia|]. intros request Hin. by apply elem_of_nil in Hin.
Qed.

(** X25. When the exchange never returns a candle older than the requested
    start, the paging loop ends: it issues at most one request per minute of
    the range, rounded up, and more turns than that always suffice. *)
Theorem pagedKlines_terminates (turns : nat) (req : CryptoRequest) :
  answersFromStart axiosGet →
  (minutesLeft (reqStartTime req * 1000) (reqEndTime req * 1000) < turns)%nat →
  (pagedKlines axiosGet turns req).1 ≠ PagesPending ∧
  (length (pagedKlines axiosGet turns req).2
     ≤ minutesLeft (reqStartTime req * 1000) (reqEndTime req * 1000))%nat.
Proof.
  intros Hanswers Hturns. unfold pagedKlines.
  destruct (klinePages_progress turns (CRYPTO_SYMBOLS (reqCrypto req))
              (reqStartTime req * 1000) (reqEndTime req * 1000) [] Hanswers Hturns)
    as (Hdone & Hcount & _).
  done.
Qed.

(** X26. When the exchange never returns a candle older than the requested
    start, every request of the loop is for the symbol of the kind, ends at
    the requested end, and starts inside the requested range. *)
Theorem pagedKlines_requests_in_window (turns : nat) (req : CryptoRequest)
    (request : KlinesRequest) :
  answersFromStart axiosGet →
  (minutesLeft (reqStartTime req * 1000) (reqEndTime req * 1000) < turns)%nat →
  request ∈ (pagedKlines axiosGet turns req).2 →
  klSymbol request = CRYPTO_SYMBOLS (reqCrypto req) ∧
  klEndTime request = reqEndTime req * 1000 ∧
  reqStartTime req * 1000 ≤ klStartTime request < reqEndTime req * 1000.
Proof.
  intros Hanswers Hturns. unfold pagedKlines.
  destruct (klinePages_progress turns (CRYPTO_SYMBOLS (reqCrypto req))
              (reqStartTime req * 1000) (reqEndTime req * 1000) [] Hanswers Hturns)
    as (_ & _ & Hshape).
  apply Hshape.
Qed.
End Paging.

Lemma fiveMinuteCandles_answersFromStart : answersFromStart fiveMinuteCandles.
Proof.
  intros request klines kline Hget Hin. unfold fiveMinuteCandles in Hget.
  injection Hget as <-. apply list_elem_of_filter in Hin as [_ Hin].
  pose proof (Z.div_mod (klStartTime request + 299999) 300000 ltac:(lia)) as Hdiv.
  pose proof (Z.mod_pos_bound (klStartTime request + 299999) 300000 ltac:(lia)) as Hmod.
  apply elem_of_cons in Hin as [->|Hin]; [simpl; lia|].
  apply list_elem_of_singleton in Hin as ->. simpl. lia.
Qed.

Lemma fetchCryptoPriceHistory_empty_range_witness :
  pagedKlines fiveMinuteCandles 1 (mkCryptoRequest BTC 600 600) = (PagesDone [], []) ∧
  fetchCryptoPriceHistory (allKlinesOf fiveMinuteCandles 1) (mkCryptoRequest BTC 600 600)
    = Some [].
Proof.
  apply (fetchCryptoPriceHistory_empty_range fiveMinuteCandles 1 (mkCryptoRequest BTC 600 600)).
  - lia.
  - simpl. lia.
Defined.

Lemma pagedKlines_terminates_witness :
  (pagedKlines fiveMinuteCandles 21 (mkCryptoRequest BTC 0 1200)).1 ≠ PagesPending ∧
  (length (pagedKlines fiveMinuteCandles 21 (mkCryptoRequest BTC 0 1200)).2
     ≤ minutesLeft (reqStartTime (mkCryptoRequest BTC 0 1200) * 1000)
         (reqEndTime (mkCryptoRequest BTC 0 1200) * 1000))%nat.
Proof.
  apply (pagedKlines_terminates fiveMinuteCandles 21 (mkCryptoRequest BTC 0 1200)).
  - exact fiveMinuteCandles_answersFromStart.
  - vm_compute. lia.
Defined.

Lemma pagedKlines_requests_in_window_witness :
  klSymbol (mkKlinesRequest (Some "BTCUSDT") 360000 1200000)
    = CRYPTO_SYMBOLS (reqCrypto (mkCryptoRequest BTC 0 1200)) ∧
  klEndTime (mkKlinesRequest (Some "BTCUSDT") 360000 1200000)
    = reqEndTime (mkCryptoRequest BTC 0 1200) * 1000 ∧
  reqStartTime (mkCryptoRequest BTC 0 1200) * 1000
    ≤ klStartTime (mkKlinesRequest (Some "BTCUSDT") 360000 1200000)
    < reqEndTime (mkCryptoRequest BTC 0 1200) * 1000.
Proof.
  apply (pagedKlines_requests_in_window fiveMinuteCandles 21 (mkCryptoRequest BTC 0 1200)
           (mkKlinesRequest (Some "BTCUSDT") 360000 1200000)).
  - exact fiveMinuteCandles_answersFromStart.
  - vm_compute. lia.
  - vm_compute. right. left.
Defined.

(** ** [extractSlugFromUrl] *)

Example extractSlugFromUrl_examples :
  extractSlugFromUrl "https://polymarket.com/event/bitcoin-above-on-december-1"
    = Some "bitcoin-above-on-december-1" ∧
  extractSlugFromUrl "http://www.polymarket.com/event/abc/?tid=1" = Some "abc" ∧
  extractSlugFromUrl "https://polymarket.com/event/a_b" = Some "a" ∧
  extractSlugFromUrl "https://polymarket.com/event/" = None ∧
  extractSlugFromUrl "ftp://polymarket.com/event/abc" = None ∧
  extractSlugFromUrl " https://polymarket.com/event/abc" = None.
Proof. vm_compute. done. Qed.

Lemma string_app_cons (c : Ascii.ascii) (s1 s2 : string) :
  String c s1 +:+ s2 = String c (s1 +:+ s2).
Proof. reflexivity. Qed.

Lemma string_app_nil_l (s : string) : "" +:+ s = s.
Proof. reflexivity. Qed.

Lemma string_app_nil_r (s : string) : s +:+ "" = s.
Proof. induction s as [|c s IH]; [done|]. by rewrite string_app_cons, IH. Qed.

Lemma string_app_assoc (s1 s2 s3 : string) : (s1 +:+ s2) +:+ s3 = s1 +:+ s2 +:+ s3.
Proof. induction s1 as [|c s1 IH]; [done|]. by rewrite !string_app_cons, IH. Qed.

Lemma stringForall_app (class : Ascii.ascii → bool) (s1 s2 : string) :
  stringForall class (s1 +:+ s2) = stringForall class s1 && stringForall class s2.
Proof.
  induction s1 as [|c s1 IH]; [done|].
  rewrite string_app_cons. simpl. rewrite IH. by rewrite andb_assoc.
Qed.

Lemma stripPrefix_app (literal s : string) : stripPrefix literal (literal +:+ s) = Some s.
Proof.
  induction literal as [|c literal IH]; [done|].
  rewrite string_app_cons. simpl. by rewrite decide_True.
Qed.

Lemma stripPrefix_Some (literal s rest : string) :
  stripPrefix literal s = Some rest → s = literal +:+ rest.
Proof.
  revert s. induction literal as [|c literal IH]; intros s; simpl.
  - by intros [= ->].
  - destruct s as [|d s]; [done|]. case_decide as Hc; [|done]. subst d.
    intros Hrest. rewrite string_app_cons. f_equal. by apply IH.
Qed.

Section MatcherFacts.
Context {A : Type}.

Lemma reLit_app (literal : string) (k : string → option A) (s : string) :
  reLit literal k (literal +:+ s) = k s.
Proof. unfold reLit. by rewrite stripPrefix_app. Qed.

Lemma reLit_Some (literal : string) (k : string → option A) (s : string) (a : A) :
  reLit literal k s = Some a → ∃ rest, s = literal +:+ rest ∧ k rest = Some a.
Proof.
  unfold reLit. destruct (stripPrefix literal s) as [rest|] eqn:Hstrip; [|done].
  intros Hk. exists rest. split; [|done]. by apply stripPrefix_Some.
Qed.

Lemma reOpt_Some (literal : string) (k : string → option A) (s : string) (a : A) :
  reOpt literal k s = Some a →
  (∃ rest, s = literal +:+ rest ∧ k rest = Some a) ∨ k s = Some a.
Proof.
  unfold reOpt. destruct (reLit literal k s) as [b|] eqn:Hlit.
  - intros [= ->]. left. by apply reLit_Some.
  - by right.
Qed.

(** An optional literal does not matter when the rest matches with the same
    result either way. *)
Lemma reOpt_either (literal : string) (k : string → option A) (s : string) (a : A) :
  (∀ rest, s = literal +:+ rest → k rest = Some a) → k s = Some a →
  reOpt literal k s = Some a.
Proof.
  intros Hwith Hwithout. unfold reOpt, reLit.
  destruct (stripPrefix literal s) as [rest|] eqn:Hstrip; [|done].
  rewrite (Hwith rest); [done|]. by apply stripPrefix_Some.
Qed.

(** The greedy star takes a whole run when the rest of the pattern matches
    after it. *)
Lemma reStar_greedy (class : Ascii.ascii → bool) (k : string → string → option A)
    (run tail : string) (a : A) :
  stringForall class run = true →
  match tail with EmptyString => true | String c _ => negb (class c) end = true →
  k run tail = Some a →
  reStar class k (run +:+ tail) = Some a.
Proof.
  revert k. induction run as [|c run IH]; intros k Hrun Htail Hk.
  - rewrite string_app_nil_l. destruct tail as [|d tail]; [done|]. simpl.
    apply negb_true_iff in Htail. by rewrite Htail.
  - rewrite string_app_cons. simpl in Hrun. apply andb_true_iff in Hrun as [Hc Hrun].
    simpl. rewrite Hc. by rewrite (IH (λ matched, k (String c matched))).
Qed.

Lemma reStar_Some (class : Ascii.ascii → bool) (k : string → string → option A)
    (s : string) (a : A) :
  reStar class k s = Some a →
  ∃ matched rest, s = matched +:+ rest ∧ stringForall class matched = true ∧
                  k matched rest = Some a.
Proof.
  revert k. induction s as [|c s IH]; intros k; simpl.
  - intros Hk. by exists "", "".
  - destruct (class c) eqn:Hc; [|intros Hk; by exists "", (String c s)].
    destruct (reStar class (λ matched, k (String c matched)) s) as [b|] eqn:Hstar.
    + intros [= ->]. destruct (IH _ Hstar) as (matched & rest & -> & Hall & Hk).
      exists (String c matched), rest. split; [done|]. split; [|done].
      simpl. by rewrite Hc.
    + intros Hk. by exists "", (String c s).
Qed.
End MatcherFacts.

(** The end of the pattern, [\/?.*$], matches everything without a line
    terminator. *)
Lemma slug_tail_matches (slug tail : string) :
  stringForall isNotLineTerminator tail = true →
  reOpt "/" (reStar isNotLineTerminator (λ _, reEnd slug)) tail = Some slug.
Proof.
  intros Htail.
  assert (Hany : ∀ rest, stringForall isNotLineTerminator rest = true →
            reStar isNotLineTerminator (λ _, reEnd slug) rest = Some slug).
  { intros rest Hrest. rewrite <- (string_app_nil_r rest) at 1.
    by apply reStar_greedy. }
  apply reOpt_either; [|by apply Hany].
  intros rest ->. apply Hany. rewrite stringForall_app in Htail.
  by apply andb_true_iff in Htail as [_ ?].
Qed.

Lemma slug_tail_matches_inv (slug tail : string) (a : string) :
  reOpt "/" (reStar isNotLineTerminator (λ _, reEnd slug)) tail = Some a →
  a = slug ∧ stringForall isNotLineTerminator tail = true.
Proof.
  assert (Hany : ∀ rest, reStar isNotLineTerminator (λ _, reEnd slug) rest = Some a →
            a = slug ∧ stringForall isNotLineTerminator rest = true).
  { intros rest Hstar. apply reStar_Some in Hstar as (matched & rest' & -> & Hall & Hend).
    destruct rest' as [|d rest']; [|done]. injection Hend as <-.
    by rewrite string_app_nil_r. }
  intros Hopt. apply reOpt_Some in Hopt as [(rest & -> & Hstar)|Hstar].
  - destruct (Hany rest Hstar) as [-> Hrest]. split; [done|].
    rewrite stringForall_app, Hrest. done.
  - by apply Hany.
Qed.

(** The slug and what follows it. *)
Lemma slug_matches (slug tail : string) :
  slug ≠ "" → stringForall isSlugChar slug = true → endsSlug tail = true →
  stringForall isNotLineTerminator tail = true →
  rePlus isSlugChar
    (λ slug, reOpt "/" (reStar isNotLineTerminator (λ _, reEnd slug))) (slug +:+ tail)
  = Some slug.
Proof.
  intros Hne Hslug Hends Htail. destruct slug as [|c slug]; [done|].
  rewrite string_app_cons. simpl in Hslug. apply andb_true_iff in Hslug as [Hc Hslug].
  simpl. rewrite Hc.
  apply (reStar_greedy isSlugChar
           (λ matched, reOpt "/" (reStar isNotLineTerminator (λ _, reEnd (String c matched)))));
    [done|done|]. by apply slug_tail_matches.
Qed.

Lemma extractSlugFromUrl_canonical (prefix slug tail : string) :
  prefix ∈ eventUrlPrefixes →
  slug ≠ "" → stringForall isSlugChar slug = true →
  endsSlug tail = true → stringForall isNotLineTerminator tail = true →
  extractSlugFromUrl (prefix +:+ slug +:+ tail) = Some slug.
Proof.
  intros Hprefix Hne Hslug Hends Htail.
  pose proof (slug_matches slug tail Hne Hslug Hends Htail) as Hcore.
  unfold eventUrlPrefixes in Hprefix. unfold extractSlugFromUrl.
  repeat (apply elem_of_cons in Hprefix as [->|Hprefix]);
    [| | | |by apply elem_of_nil in Hprefix].
  - change ("http://polymarket.com/event/" +:+ slug +:+ tail)
      with ("http" +:+ "://" +:+ "polymarket.com/event/" +:+ slug +:+ tail).
    rewrite reLit_app. unfold reOpt at 1.
    change (reLit "s" _ ("://" +:+ "polymarket.com/event/" +:+ slug +:+ tail)) with (@None string).
    rewrite reLit_app. unfold reOpt at 1.
    change (reLit "www." _ ("polymarket.com/event/" +:+ slug +:+ tail)) with (@None string).
    by rewrite reLit_app.
  - change ("https://polymarket.com/event/" +:+ slug +:+ tail)
      with ("http" +:+ "s" +:+ "://" +:+ "polymarket.com/event/" +:+ slug +:+ tail).
    rewrite reLit_app. unfold reOpt at 1. rewrite reLit_app, reLit_app. unfold reOpt at 1.
    change (reLit "www." _ ("polymarket.com/event/" +:+ slug +:+ tail)) with (@None string).
    by rewrite reLit_app, Hcore.
  - change ("http://www.polymarket.com/event/" +:+ slug +:+ tail)
      with ("http" +:+ "://" +:+ "www." +:+ "polymarket.com/event/" +:+ slug +:+ tail).
    rewrite reLit_app. unfold reOpt at 1.
    change (reLit "s" _ ("://" +:+ "www." +:+ "polymarket.com/event/" +:+ slug +:+ tail))
      with (@None string).
    rewrite reLit_app. unfold reOpt at 1. by rewrite reLit_app, reLit_app, Hcore.
  - change ("https://www.polymarket.com/event/" +:+ slug +:+ tail)
      with ("http" +:+ "s" +:+ "://" +:+ "www." +:+ "polymarket.com/event/" +:+ slug +:+ tail).
    rewrite reLit_app. unfold reOpt at 1. rewrite reLit_app, reLit_app. unfold reOpt at 1.
    by rewrite reLit_app, reLit_app, Hcore.
Qed.

(** X27. A URL made of one of the four accepted beginnings, a slug of
    letters, digits and hyphens that is not empty, and any text without a
    line break that does not continue the slug, gives back exactly the slug. *)
Theorem extractSlugFromUrl_round_trip (prefix slug tail : string) :
  prefix ∈ eventUrlPrefixes →
  slug ≠ "" → stringForall isSlugChar slug = true →
  endsSlug tail = true → stringForall isNotLineTerminator tail = true →
  extractSlugFromUrl (prefix +:+ slug +:+ tail) = Some slug.
Proof. apply extractSlugFromUrl_canonical. Qed.

Lemma extractSlugFromUrl_round_trip_witness :
  extractSlugFromUrl ("https://polymarket.com/event/" +:+ "bitcoin-above-100k" +:+ "?tid=7")
  = Some "bitcoin-above-100k".
Proof.
  apply (extractSlugFromUrl_round_trip "https://polymarket.com/event/"
           "bitcoin-above-100k" "?tid=7").
  - right. left.
  - discriminate.
  - reflexivity.
  - reflexivity.
  - reflexivity.
Defined.

Lemma slug_run_split (tail : string) :
  ∃ more rest : string,
    tail = more +:+ rest ∧ stringForall isSlugChar more = true ∧ endsSlug rest = true.
Proof.
  induction tail as [|c tail (more & rest & -> & Hmore & Hrest)].
  - by exists "", "".
  - destruct (isSlugChar c) eqn:Hc.
    + exists (String c more), rest. split; [done|]. split; [|done]. simpl. by rewrite Hc.
    + exists "", (String c (more +:+ rest)). split; [done|]. split; [done|].
      simpl. by rewrite Hc.
Qed.

(** X28. A slug that [extractSlugFromUrl] returns is not empty, is made of
    letters, digits and hyphens only, and is the longest such text that
    follows one of the four accepted beginnings in the URL; the rest of the
    URL has no line break. *)
Theorem extractSlugFromUrl_sound (url slug : string) :
  extractSlugFromUrl url = Some slug →
  slug ≠ "" ∧ stringForall isSlugChar slug = true ∧
  ∃ prefix tail : string,
    prefix ∈ eventUrlPrefixes ∧ url = prefix +:+ slug +:+ tail ∧
    endsSlug tail = true ∧ stringForall isNotLineTerminator tail = true.
Proof.
  intros Hextract.
  assert (Hparts : ∃ prefix tail : string,
    prefix ∈ eventUrlPrefixes ∧ url = prefix +:+ slug +:+ tail ∧
    slug ≠ "" ∧ stringForall isSlugChar slug = true ∧
    stringForall isNotLineTerminator tail = true).
  { unfold extractSlugFromUrl in Hextract.
    apply reLit_Some in Hextract as (r1 & -> & Hs).
    assert (Hhost : ∀ (prefix rest : string),
      prefix ∈ ["http://"; "https://"] →
      reOpt "www." (reLit "polymarket.com/event/"
        (rePlus isSlugChar (λ slug,
           reOpt "/" (reStar isNotLineTerminator (λ _, reEnd slug))))) rest = Some slug →
      ∃ prefix' tail : string,
        prefix' ∈ eventUrlPrefixes ∧ prefix +:+ rest = prefix' +:+ slug +:+ tail ∧
        slug ≠ "" ∧ stringForall isSlugChar slug = true ∧
        stringForall isNotLineTerminator tail = true).
    { intros prefix rest Hprefix Hwww.
      assert (Hslug : ∀ rest', reLit "polymarket.com/event/"
        (rePlus isSlugChar (λ slug,
           reOpt "/" (reStar isNotLineTerminator (λ _, reEnd slug)))) rest' = Some slug →
        ∃ tail : string, rest' = "polymarket.com/event/" +:+ slug +:+ tail ∧
          slug ≠ "" ∧ stringForall isSlugChar slug = true ∧
          stringForall isNotLineTerminator tail = true).
      { intros rest' Hlit. apply reLit_Some in Hlit as (r & -> & Hplus).
        unfold rePlus in Hplus. destruct r as [|c r]; [done|].
        destruct (isSlugChar c) eqn:Hc; [|done].
        apply reStar_Some in Hplus as (matched & tail & -> & Hall & Hk).
        apply slug_tail_matches_inv in Hk as [-> Htail].
        exists tail. split; [done|]. split; [done|]. split; [|done].
        simpl. by rewrite Hc, Hall. }
      apply reOpt_Some in Hwww as [(r & -> & Hlit)|Hlit].
      - destruct (Hslug r Hlit) as (tail & -> & Hne & Hall & Htail).
        apply elem_of_cons in Hprefix as [->|Hprefix];
          [|apply list_elem_of_singleton in Hprefix as ->].
        + exists "http://www.polymarket.com/event/", tail.
          split; [unfold eventUrlPrefixes; by do 2 right; left|]. done.
        + exists "https://www.polymarket.com/event/", tail.
          split; [unfold eventUrlPrefixes; by do 3 right; left|]. done.
      - destruct (Hslug rest Hlit) as (tail & -> & Hne & Hall & Htail).
        apply elem_of_cons in Hprefix as [->|Hprefix];
          [|apply list_elem_of_singleton in Hprefix as ->].
        + exists "http://polymarket.com/event/", tail.
          split; [unfold eventUrlPrefixes; by left|]. done.
        + exists "https://polymarket.com/event/", tail.
          split; [unfold eventUrlPrefixes; by right; left|]. done. }
    apply reOpt_Some in Hs as [(r2 & -> & Hscheme)|Hscheme].
    - apply reLit_Some in Hscheme as (r3 & -> & Hwww).
      apply (Hhost "https://" r3); [by right; left|done].
    - apply reLit_Some in Hscheme as (r3 & -> & Hwww).
      apply (Hhost "http://" r3); [by left|done]. }
  destruct Hparts as (prefix & tail & Hprefix & -> & Hne & Hslug & Htail).
  split; [done|]. split; [done|].
  destruct (slug_run_split tail) as (more & rest & -> & Hmore & Hrest).
  rewrite stringForall_app in Htail. apply andb_true_iff in Htail as [_ Htail].
  assert (Hlonger : extractSlugFromUrl (prefix +:+ (slug +:+ more) +:+ rest)
                    = Some (slug +:+ more)).
  { apply extractSlugFromUrl_canonical; try done.
    - destruct slug; [done|]. by rewrite string_app_cons.
    - by rewrite stringForall_app, Hslug, Hmore. }
  rewrite string_app_assoc, Hextract in Hlonger. injection Hlonger as Hlonger.
  assert (Hnone : more = "").
  { apply (f_equal String.length) in Hlonger. rewrite string_length_app in Hlonger.
    destruct more; [done|]. simpl in Hlonger. lia. }
  subst more. exists prefix, rest. rewrite string_app_nil_l. done.
Qed.

Lemma extractSlugFromUrl_sound_witness :
  "abc" ≠ "" ∧ stringForall isSlugChar "abc" = true ∧
  ∃ prefix tail : string,
    prefix ∈ eventUrlPrefixes ∧
    "http://www.polymarket.com/event/abc/?tid=1" = prefix +:+ "abc" +:+ tail ∧
    endsSlug tail = true ∧ stringForall isNotLineTerminator tail = true.
Proof.
  apply (extractSlugFromUrl_sound "http://www.polymarket.com/event/abc/?tid=1" "abc").
  vm_compute. reflexivity.
Defined.

(** ** Operations together *)

(** X29. With the paging loop of [src/api/binance.ts] as the source of
    candles, a first [fetchCrypto] for a range that is a single instant (or
    inverted) contacts the exchange with no request, stores the empty series
    and still records the range as covered. *)
Theorem fetchCrypto_instant_range_stores_nothing
    (axiosGet : KlinesRequest → option (list Kline)) (turns : nat)
    (crypto : CryptoOption) (range : Range) (st : State) :
  (0 < turns)%nat →
  rangeMax range ≤ rangeMin range →
  cryptoCacheRef st = None →
  (pagedKlines axiosGet turns (rangeRequest crypto range)).2 = [] ∧
  cryptoPrices (fetchCrypto (allKlinesOf axiosGet turns) crypto range st).1 = [] ∧
  cryptoCacheRef (fetchCrypto (allKlinesOf axiosGet turns) crypto range st).1
    = Some (mkCryptoCache crypto (rangeMin range) (rangeMax range)).
Proof.
  intros Hturns Hrange Hcache.
  assert (Hpaged : pagedKlines axiosGet turns (rangeRequest crypto range) = (PagesDone [], [])).
  { unfold pagedKlines. destruct turns as [|turns]; [lia|]. simpl.
    by rewrite decide_False by lia. }
  split; [by rewrite Hpaged|].
  rewrite fetchCrypto_without_coverage by (by left).
  unfold fetchEntireRange, fetchCryptoPriceHistory, allKlinesOf. by rewrite Hpaged.
Qed.

Lemma fetchCrypto_instant_range_stores_nothing_witness :
  (pagedKlines fiveMinuteCandles 1 (rangeRequest BTC (mkRange 600 600))).2 = [] ∧
  cryptoPrices
    (fetchCrypto (allKlinesOf fiveMinuteCandles 1) BTC (mkRange 600 600) initialState).1 = [] ∧
  cryptoCacheRef
    (fetchCrypto (allKlinesOf fiveMinuteCandles 1) BTC (mkRange 600 600) initialState).1
    = Some (mkCryptoCache BTC (rangeMin (mkRange 600 600)) (rangeMax (mkRange 600 600))).
Proof.
  apply (fetchCrypto_instant_range_stores_nothing fiveMinuteCandles 1 BTC (mkRange 600 600)
           initialState).
  - lia.
  - simpl. lia.
  - reflexivity.
Defined.

(** X30. For a key that is not selected and whose history is stored, two
    clicks in a row issue no fetch and give back the selection as it was,
    entry for entry, with the stored histories untouched. *)
Theorem handleBetToggle_twice_restores
    (fetchPriceHistory : PriceHistoryRequest → option PriceHistory)
    (market : ParsedMarket) (ty : BetType) (st : State) :
  generateBetKey (id market) ty ∉ mapKeys (selectedBets st) →
  is_Some (priceHistories st !! generateBetKey (id market) ty) →
  (handleBetToggle fetchPriceHistory market ty st).2 = [] ∧
  (handleBetToggle fetchPriceHistory market ty
     (handleBetToggle fetchPriceHistory market ty st).1).2 = [] ∧
  selectedBets (handleBetToggle fetchPriceHistory market ty
                  (handleBetToggle fetchPriceHistory market ty st).1).1
    = selectedBets st ∧
  priceHistories (handleBetToggle fetchPriceHistory market ty
                    (handleBetToggle fetchPriceHistory market ty st).1).1
    = priceHistories st.
Proof.
  intros Hnot Hstored.
  assert (Hfirst : handleBetToggle fetchPriceHistory market ty st =
    (setSelectedBets
       (mapSet (generateBetKey (id market) ty)
          (mkSelectedBet (id market) (question market) (groupItemTitle market)
             (startDate market) ty
             (match ty with YES => yesTokenId market | NO => noTokenId market end))) st, [])).
  { unfold handleBetToggle, toggleSelection.
    rewrite (proj2 (mapHas_false _ _) Hnot), (bool_decide_eq_true_2 _ Hstored).
    cbn [negb andb]. unfold setSelectedBets. cbn beta.
    by rewrite (proj2 (mapHas_false _ _) Hnot). }
  rewrite Hfirst. cbn [fst snd]. split; [done|].
  set (bet := mkSelectedBet _ _ _ _ _ _).
  assert (Hhas : mapHas (generateBetKey (id market) ty)
                   (mapSet (generateBetKey (id market) ty) bet (selectedBets st)) = true).
  { unfold mapHas. apply bool_decide_eq_true_2. unfold mapSet.
    rewrite (proj2 (mapHas_false _ _) Hnot). unfold mapKeys. rewrite fmap_app.
    apply elem_of_app. right. by left. }
  unfold handleBetToggle, toggleSelection. cbn [selectedBets setSelectedBets].
  rewrite Hhas. cbn [fst snd negb andb selectedBets setSelectedBets priceHistories].
  split; [done|]. split; [|done]. rewrite Hhas. by apply mapDelete_mapSet_absent.
Qed.

Lemma handleBetToggle_twice_restores_witness :
  let st := setSelectedBets (λ _, [(generateBetKey "B" YES, betOf "B" YES)]) twoSeriesState in
  let market := mkParsedMarket "A" "Will it rain?" "" 0 0 1700000000 "tokenYes" "tokenNo" in
  (handleBetToggle failingPriceHistory market YES st).2 = [] ∧
  (handleBetToggle failingPriceHistory market YES
     (handleBetToggle failingPriceHistory market YES st).1).2 = [] ∧
  selectedBets (handleBetToggle failingPriceHistory market YES
                  (handleBetToggle failingPriceHistory market YES st).1).1
    = selectedBets st ∧
  priceHistories (handleBetToggle failingPriceHistory market YES
                    (handleBetToggle failingPriceHistory market YES st).1).1
    = priceHistories st.
Proof.
  apply (handleBetToggle_twice_restores failingPriceHistory
           (mkParsedMarket "A" "Will it rain?" "" 0 0 1700000000 "tokenYes" "tokenNo") YES
           (setSelectedBets (λ _, [(generateBetKey "B" YES, betOf "B" YES)]) twoSeriesState)).
  - vm_compute. intros Hin. apply list_elem_of_singleton in Hin. discriminate Hin.
  - vm_compute. by eexists.
Defined.
